(** * Pattern Matching Visualizer: the trace engine of [src/App.jsx]

    A shallow embedding of the table builders ([computeLPS],
    [computeBadChar], [computeGoodSuffix]), of the two trace generators
    ([buildKMPSteps], [buildBMSteps]) and of the step lookup of
    [jumpToComparison], followed by the properties of the specification.

    Conventions of the embedding.
    - A JS string is the list of its code units, over any type [A] with
      decidable equality (countable, since code units key the
      bad-character object).  [s[i]] is [JS.nth s i : option A], [None]
      standing for [undefined]; [===] on two such reads is [js_eq].
    - JS numbers that hold indices are [Z].
    - An array is a list; a read [a[i]] is [JS.nth], a write [a[i] = v] is
      [JS.set], which is defined inside the bounds only.  A read whose value
      the code uses as a number and a write need the index in range: out of
      range the model stops with [None].  The totality lemmas show that this
      never happens.
    - A [while] loop is the combinator [while], run with fuel; running out
      of fuel is [None] too, and the totality lemmas show that the fuel
      given is enough.
    - A template literal is kept as its template and the values of its
      holes (the types [LogEntry], [Action] and [Summary]). *)

From stdpp Require Import base list list_numbers gmap strings.
From Stdlib Require Import ZArith Lia.

Local Open Scope Z_scope.

(** ** JavaScript values *)

Module JS.

Definition len {X} (l : list X) : Z := Z.of_nat (length l).

(** [a[i]]: [undefined] outside the bounds. *)
Definition nth {X} (l : list X) (i : Z) : option X :=
  if bool_decide (0 ≤ i) then l !! Z.to_nat i else None.

(** [a[i] = v] for an index inside the bounds. *)
Definition set {X} (l : list X) (i : Z) (v : X) : option (list X) :=
  if bool_decide (0 ≤ i < len l) then Some (<[Z.to_nat i := v]> l) else None.

(** [Array(n).fill(v)] *)
Definition fill {X} (n : Z) (v : X) : list X := replicate (Z.to_nat n) v.

(** [a.slice(0, k)] *)
Definition slice0 {X} (l : list X) (k : Z) : list X := take (Z.to_nat k) l.

(** [x ?? d] *)
Definition nullish {X} (x : option X) (d : X) : X := default d x.

End JS.

(** [while (cond) body], with fuel. *)
Fixpoint while {St : Type} (cond : St → bool) (body : St → option St)
    (fuel : nat) (s : St) : option St :=
  if cond s then
    match fuel with
    | O => None
    | S fuel' =>
        match body s with
        | Some s' => while cond body fuel' s'
        | None => None
        end
    end
  else Some s.

Global Arguments while : simpl never.

(** A string literal of the examples, as the list of its characters. *)
Definition str (s : string) : list Ascii.ascii :=
  String.list_ascii_of_string s.

Section Engine.

Context {A : Type} `{Countable A}.

(** [x === y] on two reads of a string. *)
Definition js_eq (x y : option A) : bool := bool_decide (x = y).

(** ** KMP: the LPS table *)

(** The lines of the preprocessing log. *)
Inductive LogEntry : Type :=
| LogCompare (i : Z) (pi : option A) (len : Z) (plen : option A)
    (* `Compare p[${i}]='${p[i]}' with p[${len}]='${p[len]}'` *)
| LogMatch (i len : Z)      (* `Match -> lps[${i}] = ${len}` *)
| LogFallback (len : Z)     (* `Fallback len to ${len}` *)
| LogSet (i : Z).           (* `Set lps[${i}] = 0` *)

Record LPSState : Type := mkLPS {
  lp_lps : list Z;
  lp_log : list LogEntry;
  lp_len : Z;
  lp_i : Z
}.

Definition lps_cond (p : list A) (st : LPSState) : bool :=
  lp_i st <? JS.len p.

Definition lps_body (p : list A) (st : LPSState) : option LPSState :=
  let i := lp_i st in
  let len := lp_len st in
  let log := lp_log st ++ [LogCompare i (JS.nth p i) len (JS.nth p len)] in
  if js_eq (JS.nth p i) (JS.nth p len) then
    let len := len + 1 in
    lps ← JS.set (lp_lps st) i len;
    Some (mkLPS lps (log ++ [LogMatch i len]) len (i + 1))
  else if negb (len =? 0) then
    len ← JS.nth (lp_lps st) (len - 1);
    Some (mkLPS (lp_lps st) (log ++ [LogFallback len]) len i)
  else
    lps ← JS.set (lp_lps st) i 0;
    Some (mkLPS lps (log ++ [LogSet i]) len (i + 1)).

Definition computeLPS (p : list A) : option (list Z * list LogEntry) :=
  let n := JS.len p in
  st ← while (lps_cond p) (lps_body p) (2 * length p)
          (mkLPS (JS.fill n 0) [] 0 1);
  Some (lp_lps st, lp_log st).

(** ** Steps of a trace *)

(** [lastComparison: { textIndex, patternIndex, match }] *)
Record Comparison : Type := mkCmp {
  textIndex : Z;
  patternIndex : Z;
  cmatch : bool
}.

(** The [action] strings, by template. *)
Inductive Action : Type :=
| ActCompare (i : Z) (ti : option A) (j : Z) (pj : option A)
    (* `Compare text[${i}]='${text[i]}' with pattern[${j}]='${pattern[j]}'` *)
| ActFound (start : Z)            (* `Pattern found at ${start}` *)
| ActFallback (oldj j : Z)        (* `Mismatch -> fallback j from ${oldj} to ${j}` *)
| ActIncrement                    (* `Mismatch and j=0 -> i++` *)
| ActComplete                     (* "Search complete" *)
| ActAlign (s : Z)                (* `Align pattern at s=${s}` *)
| ActMatchAt (t j : Z)            (* `Match at text[${s + j}] & pattern[${j}]` *)
| ActMismatchAt (t j : Z)         (* `Mismatch at text[${s + j}] & pattern[${j}]` *)
| ActShiftAfterMatch (shift : Z)  (* `Shift after match by ${shift}` *)
| ActShift (bcShift gsShift shift : Z).
    (* `Bad Character shift ${bcShift}, Good Suffix shift ${gsShift} -> use ${shift}` *)

(** The [summary] strings, by template. *)
Inductive Summary : Type :=
| SumMatchAt (t j : Z)            (* `Match at text[${i}] & pattern[${j}]` *)
| SumMismatchAt (t j : Z)         (* `Mismatch at text[${i}] & pattern[${j}]` *)
| SumOccurs (start : Z)           (* `Pattern occurs at ${start}` *)
| SumFallback (j : Z)             (* `Fallback j to ${j}` *)
| SumIncrement                    (* `Increment i` *)
| SumFinished                     (* "Search finished." *)
| SumWindow (s e : Z)             (* `Window [${s}, ${s + m - 1}]` *)
| SumShiftTo (t : Z)              (* `Shift to ${s + shift}` *)
| SumShiftFromTo (s t : Z).       (* `Shift from ${s} to ${s + shift}` *)

(** A step object; a field the object literal leaves out is [None]. *)
Record Step : Type := mkStep {
  windowStart : option Z;
  windowEnd : option Z;
  compareIndex : option Z;
  lastComparison : option Comparison;
  lastMatch : option bool;
  action : Action;
  summary : Summary
}.

(** The step pushed last by both generators. *)
Definition completeStep : Step :=
  mkStep None None None None None ActComplete SumFinished.

(** ** KMP: the trace generator *)

(** [ks_cmps] is ghost state: it logs the coordinates of every evaluation
    of [text[i] === pattern[j]]; the program does not have it and nothing
    reads it. *)
Record KMPState : Type := mkKMP {
  ks_i : Z;
  ks_j : Z;
  ks_steps : list Step;
  ks_matches : list Z;
  ks_cmps : list (Z * Z)
}.

Definition kmp_cond (text : list A) (st : KMPState) : bool :=
  ks_i st <? JS.len text.

Definition kmp_body (text pattern : list A) (lps : list Z) (st : KMPState)
    : KMPState :=
  let i := ks_i st in
  let j := ks_j st in
  let mt := js_eq (JS.nth text i) (JS.nth pattern j) in
  let cmps := ks_cmps st ++ [(i, j)] in
  let steps := ks_steps st ++
    [mkStep (Some (i - j)) (Some (i - j + JS.len pattern - 1)) (Some i)
       (Some (mkCmp i j mt)) (Some mt)
       (ActCompare i (JS.nth text i) j (JS.nth pattern j))
       (if mt then SumMatchAt i j else SumMismatchAt i j)] in
  if mt then
    let i := i + 1 in
    let j := j + 1 in
    if j =? JS.len pattern then
      let start := i - j in
      let matches := ks_matches st ++ [start] in
      let steps := steps ++
        [mkStep (Some start) (Some (start + JS.len pattern - 1)) None None None
           (ActFound start) (SumOccurs start)] in
      let j := JS.nullish (JS.nth lps (j - 1)) 0 in
      mkKMP i j steps matches cmps
    else mkKMP i j steps (ks_matches st) cmps
  else if negb (j =? 0) then
    let oldj := j in
    let j := JS.nullish (JS.nth lps (j - 1)) 0 in
    let steps := steps ++
      [mkStep (Some (i - j)) (Some (i - j + JS.len pattern - 1)) None None None
         (ActFallback oldj j) (SumFallback j)] in
    mkKMP i j steps (ks_matches st) cmps
  else
    let steps := steps ++
      [mkStep None None None None None ActIncrement SumIncrement] in
    mkKMP (i + 1) j steps (ks_matches st) cmps.

(** The state at the exit of the loop of [buildKMPSteps]. *)
Definition kmp_run (text pattern : list A) : option KMPState :=
  '(lps, log) ← computeLPS pattern;
  while (kmp_cond text) (λ st, Some (kmp_body text pattern lps st))
    (2 * length text) (mkKMP 0 0 [] [] []).

Definition buildKMPSteps (text pattern : list A)
    : option (list Step * list Z) :=
  st ← kmp_run text pattern;
  Some (ks_steps st ++ [completeStep], ks_matches st).

(** ** Boyer-Moore: the tables *)

(** [for (let i = 0; i < p.length; i++) bad[p[i]] = i;] from index [i] on,
    [p] being the rest of the pattern. *)
Fixpoint badchar_from (p : list A) (i : Z) (bad : gmap A Z) : gmap A Z :=
  match p with
  | [] => bad
  | c :: p' => badchar_from p' (i + 1) (<[c := i]> bad)
  end.

Definition computeBadChar (p : list A) : gmap A Z := badchar_from p 0 ∅.

Record GSState : Type := mkGS {
  gs_shift : list Z;
  gs_borderPos : list Z;
  gs_i : Z;
  gs_j : Z
}.

(** [while (j <= m && p[i - 1] !== p[j - 1])] *)
Definition gs_inner_cond (p : list A) (st : GSState) : bool :=
  (gs_j st <=? JS.len p)
  && negb (js_eq (JS.nth p (gs_i st - 1)) (JS.nth p (gs_j st - 1))).

Definition gs_inner_body (p : list A) (st : GSState) : option GSState :=
  let m := JS.len p in
  let i := gs_i st in
  let j := gs_j st in
  sj ← JS.nth (gs_shift st) j;
  shift ← (if sj =? m then JS.set (gs_shift st) j (j - i)
           else Some (gs_shift st));
  j ← JS.nth (gs_borderPos st) j;
  Some (mkGS shift (gs_borderPos st) i j).

(** [while (i > 0)] *)
Definition gs_outer_cond (st : GSState) : bool := 0 <? gs_i st.

Definition gs_outer_body (p : list A) (st : GSState) : option GSState :=
  st ← while (gs_inner_cond p) (gs_inner_body p) (S (length p)) st;
  let i := gs_i st - 1 in
  let j := gs_j st - 1 in
  borderPos ← JS.set (gs_borderPos st) i j;
  Some (mkGS (gs_shift st) borderPos i j).

(** [for (i = 0; i <= m; i++)] *)
Definition gs_fill_cond (p : list A) (st : GSState) : bool :=
  gs_i st <=? JS.len p.

Definition gs_fill_body (p : list A) (st : GSState) : option GSState :=
  let m := JS.len p in
  let i := gs_i st in
  let j := gs_j st in
  si ← JS.nth (gs_shift st) i;
  shift ← (if si =? m then JS.set (gs_shift st) i j
           else Some (gs_shift st));
  j ← (if i =? j then JS.nth (gs_borderPos st) j else Some j);
  Some (mkGS shift (gs_borderPos st) (i + 1) j).

(** The array [suff] of the source is never read and is left out. *)
Definition computeGoodSuffix (p : list A) : option (list Z) :=
  let m := JS.len p in
  let shift := JS.fill (m + 1) m in
  let borderPos := JS.fill (m + 1) 0 in
  let i := m in
  let j := m + 1 in
  borderPos ← JS.set borderPos i j;
  st ← while gs_outer_cond (gs_outer_body p) (length p)
         (mkGS shift borderPos i j);
  j ← JS.nth (gs_borderPos st) 0;
  st ← while (gs_fill_cond p) (gs_fill_body p) (S (length p))
         (mkGS (gs_shift st) (gs_borderPos st) 0 j);
  Some (JS.slice0 (gs_shift st) (m + 1)).

(** ** Boyer-Moore: the trace generator *)

(** The inner loop works on [j] and pushes steps. *)
Record BMScan : Type := mkScan {
  sc_j : Z;
  sc_steps : list Step
}.

(** [while (j >= 0 && pattern[j] === text[s + j])] *)
Definition bm_scan_cond (text pattern : list A) (s : Z) (sc : BMScan) : bool :=
  (0 <=? sc_j sc)
  && js_eq (JS.nth pattern (sc_j sc)) (JS.nth text (s + sc_j sc)).

Definition bm_scan_body (pattern : list A) (s : Z) (sc : BMScan) : BMScan :=
  let m := JS.len pattern in
  let j := sc_j sc in
  mkScan (j - 1)
    (sc_steps sc ++
     [mkStep (Some s) (Some (s + m - 1)) (Some (s + j))
        (Some (mkCmp (s + j) j true)) (Some true)
        (ActMatchAt (s + j) j) (SumMatchAt (s + j) j)]).

Record BMState : Type := mkBM {
  bm_s : Z;
  bm_steps : list Step;
  bm_matches : list Z
}.

(** [while (s <= n - m)] *)
Definition bm_cond (text pattern : list A) (st : BMState) : bool :=
  bm_s st <=? JS.len text - JS.len pattern.

Definition bm_body (text pattern : list A) (bad : gmap A Z) (good : list Z)
    (st : BMState) : option BMState :=
  let n := JS.len text in
  let m := JS.len pattern in
  let s := bm_s st in
  let j := m - 1 in
  let steps := bm_steps st ++
    [mkStep (Some s) (Some (s + m - 1)) None None None
       (ActAlign s) (SumWindow s (s + m - 1))] in
  sc ← while (bm_scan_cond text pattern s)
         (λ sc, Some (bm_scan_body pattern s sc)) (length pattern)
         (mkScan j steps);
  let j := sc_j sc in
  let steps := sc_steps sc in
  if j <? 0 then
    let matches := bm_matches st ++ [s] in
    let steps := steps ++
      [mkStep (Some s) (Some (s + m - 1)) None None None
         (ActFound s) (SumOccurs s)] in
    let shift := JS.nullish (JS.nth good 0) 1 in
    let steps := steps ++
      [mkStep (Some (s + shift)) None None None None
         (ActShiftAfterMatch shift) (SumShiftTo (s + shift))] in
    Some (mkBM (s + shift) steps matches)
  else
    let steps := steps ++
      [mkStep (Some s) (Some (s + m - 1)) (Some (s + j))
         (Some (mkCmp (s + j) j false)) (Some false)
         (ActMismatchAt (s + j) j) (SumMismatchAt (s + j) j)] in
    let badChar := JS.nth text (s + j) in
    let lastOcc := JS.nullish (c ← badChar; bad !! c) (-1) in
    let bcShift := Z.max 1 (j - lastOcc) in
    let gsShift := JS.nullish (JS.nth good (j + 1)) m in
    let shift := Z.max bcShift gsShift in
    let steps := steps ++
      [mkStep (Some (s + shift)) None None None None
         (ActShift bcShift gsShift shift) (SumShiftFromTo s (s + shift))] in
    Some (mkBM (s + shift) steps (bm_matches st)).

Definition buildBMSteps (text pattern : list A)
    : option (list Step * list Z) :=
  let bad := computeBadChar pattern in
  good ← computeGoodSuffix pattern;
  st ← while (bm_cond text pattern) (bm_body text pattern bad good)
         (length text) (mkBM 0 [] []);
  Some (bm_steps st ++ [completeStep], bm_matches st).

(** ** The step lookup of [jumpToComparison] *)

(** [a.findIndex(f)], counting from [k]: [-1] when no element passes. *)
Fixpoint findIndex_from {X} (f : X → bool) (l : list X) (k : Z) : Z :=
  match l with
  | [] => -1
  | x :: l' => if f x then k else findIndex_from f l' (k + 1)
  end.

Definition findIndex {X} (f : X → bool) (l : list X) : Z :=
  findIndex_from f l 0.

(** [step.lastComparison?.textIndex === textIndex &&
     step.lastComparison?.patternIndex === patternIndex] *)
Definition comparesAt (t p : Z) (step : Step) : bool :=
  match lastComparison step with
  | Some c => (textIndex c =? t) && (patternIndex c =? p)
  | None => false
  end.

(** The position [pos] after a click on the grid cell [(textIndex,
    patternIndex)]; [setPos] is the only effect. *)
Definition jumpToComparison (steps : list Step) (pos : Z)
    (textIndex patternIndex : Z) : Z :=
  if JS.len steps =? 0 then pos
  else
    let stepIndex := findIndex (comparesAt textIndex patternIndex) steps in
    if negb (stepIndex =? -1) then stepIndex else pos.

(** [steps.filter(s => s.lastComparison).length], the number of
    comparisons that the application shows for a trace. *)
Definition totalComparisons (steps : list Step) : Z :=
  JS.len (filter (λ s, is_Some (lastComparison s)) steps).

(** ** The application around the engine *)

(** [a.slice(0, k)] for any [k]: a negative [k] counts from the end. *)
Definition sliceTo {X} (l : list X) (k : Z) : list X :=
  take (Z.to_nat (if k <? 0 then Z.max (JS.len l + k) 0 else k)) l.

(** [Array.from({ length: n }, (_, i) => f(i))] *)
Definition arrayFrom {X} (n : Z) (f : Z → X) : list X := f <$> seqZ 0 n.

(** What [App] keeps with [useState], the three inputs apart. *)
Record AppState : Type := mkApp {
  app_steps : list Step;
  app_pos : Z;
  app_generated : bool;
  app_matches : list Z;
  app_compareGrid : list (list bool)
}.

(** The effect that runs when an input changes. *)
Definition resetOnInput : AppState := mkApp [] 0 false [] [].

(** The grid that [onRun] builds: [grid[i][j]] is [text[i] === pattern[j]]. *)
Definition compareGridOf (text pattern : list A) : list (list bool) :=
  arrayFrom (JS.len text) (λ i,
    arrayFrom (JS.len pattern) (λ j,
      js_eq (JS.nth text i) (JS.nth pattern j))).

(** [onRun]: nothing for the empty pattern; otherwise the grid, the trace
    and the matches of the selected algorithm, and the position 0. *)
Definition onRun (text pattern : list A) (algorithm : string)
    (app : AppState) : option AppState :=
  if bool_decide (pattern = []) then Some app
  else
    let grid := compareGridOf text pattern in
    '(s, m) ← (if String.eqb algorithm "KMP"
               then buildKMPSteps text pattern
               else buildBMSteps text pattern);
    Some (mkApp s 0 true m grid).

(** [onNext], [onPrev] and [onReset], as the new position. *)
Definition onNext (steps : list Step) (pos : Z) : Z :=
  Z.min (pos + 1) (JS.len steps - 1).

Definition onPrev (pos : Z) : Z := Z.max (pos - 1) 0.

Definition onReset : Z := 0.

(** [steps[pos] || null] *)
Definition currentStep (steps : list Step) (pos : Z) : option Step :=
  JS.nth steps pos.

(** [current ? (current.windowStart ?? 0) : 0], the offset of the pattern
    row. *)
Definition windowStartOf (current : option Step) : Z :=
  match current with
  | Some c => JS.nullish (windowStart c) 0
  | None => 0
  end.

(** [algorithm === "KMP" ? text.length + pattern.length
                          : text.length * pattern.length] *)
Definition worstCaseComparisons (text pattern : list A) (algorithm : string)
    : Z :=
  if String.eqb algorithm "KMP" then JS.len text + JS.len pattern
  else JS.len text * JS.len pattern.

(** [steps.slice(0, pos + 1).filter(s => s.lastComparison).length] *)
Definition currentComparisons (steps : list Step) (pos : Z) : Z :=
  totalComparisons (sliceTo steps (pos + 1)).

(** The classes [match], [mismatch] or none that a cell of the text row or
    of the pattern row gets. *)
Inductive CellClass : Type := ClsNone | ClsMatch | ClsMismatch.

(** [current && current.compareIndex === i] *)
Definition isCompare (current : option Step) (i : Z) : bool :=
  match current with
  | Some c => bool_decide (compareIndex c = Some i)
  | None => false
  end.

(** [isCompare ? (current.lastMatch ? "match" : "mismatch") : ""] *)
Definition textCellClass (current : option Step) (i : Z) : CellClass :=
  if isCompare current i then
    match current with
    | Some c => if JS.nullish (lastMatch c) false then ClsMatch else ClsMismatch
    | None => ClsMismatch
    end
  else ClsNone.

(** [matches.includes(i)] *)
Definition isFoundStart (matches : list Z) (i : Z) : bool :=
  bool_decide (i ∈ matches).

(** [current && current.lastComparison &&
     current.lastComparison.textIndex === windowStart + j &&
     current.lastComparison.patternIndex === j] *)
Definition isComp (current : option Step) (windowStart j : Z) : bool :=
  match current with
  | Some c =>
      match lastComparison c with
      | Some cmp =>
          (textIndex cmp =? windowStart + j) && (patternIndex cmp =? j)
      | None => false
      end
  | None => false
  end.

(** [isComp ? (current.lastComparison.match ? "match" : "mismatch") : ""] *)
Definition patternCellClass (current : option Step) (windowStart j : Z)
    : CellClass :=
  if isComp current windowStart j then
    match current ≫= lastComparison with
    | Some cmp => if cmatch cmp then ClsMatch else ClsMismatch
    | None => ClsMismatch
    end
  else ClsNone.

(** ** Reference notions of the specification *)

(** The pattern occurs in the text at index [s]. *)
Definition occurs_at (text pattern : list A) (s : Z) : Prop :=
  0 ≤ s ∧ take (length pattern) (drop (Z.to_nat s) text) = pattern.

Global Instance occurs_at_dec text pattern s :
  Decision (occurs_at text pattern s).
Proof. unfold occurs_at. apply _. Defined.

(** The brute-force scan: every window start from [0] to [n - m] in
    ascending order, kept when the window holds the pattern. *)
Definition bruteForce (text pattern : list A) : list Z :=
  filter (occurs_at text pattern)
    (seqZ 0 (JS.len text - JS.len pattern + 1)).

(** The prefix of length [b] of [w] is a proper prefix of [w] and also a
    suffix of [w]. *)
Definition proper_border (w : list A) (b : nat) : Prop :=
  (b < length w)%nat ∧ take b w = drop (length w - b) w.

Definition longest_proper_border (w : list A) (b : nat) : Prop :=
  proper_border w b ∧ ∀ b', proper_border w b' → (b' ≤ b)%nat.

(** * Properties *)

(** ** Arrays *)

Lemma nth_Some_inv {X} (l : list X) i v :
  JS.nth l i = Some v → 0 ≤ i < JS.len l.
Proof.
  unfold JS.nth, JS.len. case_bool_decide; [|done].
  intros Hl%lookup_lt_Some. lia.
Qed.

Lemma nth_is_Some {X} (l : list X) i :
  0 ≤ i < JS.len l → ∃ v, JS.nth l i = Some v.
Proof.
  unfold JS.nth, JS.len. intros Hi. rewrite bool_decide_eq_true_2 by lia.
  apply lookup_lt_is_Some_2. lia.
Qed.

Lemma nth_None {X} (l : list X) i :
  ¬ (0 ≤ i < JS.len l) → JS.nth l i = None.
Proof.
  intros Hi. destruct (JS.nth l i) eqn:E; [|done].
  apply nth_Some_inv in E. lia.
Qed.

Lemma nth_lookup {X} (l : list X) (k : nat) :
  JS.nth l (Z.of_nat k) = l !! k.
Proof.
  unfold JS.nth. rewrite bool_decide_eq_true_2 by lia. by rewrite Nat2Z.id.
Qed.

Lemma set_is_Some {X} (l : list X) i v :
  0 ≤ i < JS.len l → ∃ l', JS.set l i v = Some l'.
Proof.
  unfold JS.set. intros Hi. rewrite bool_decide_eq_true_2 by done. eauto.
Qed.

Lemma set_len {X} (l l' : list X) i v :
  JS.set l i v = Some l' → JS.len l' = JS.len l.
Proof.
  unfold JS.set, JS.len. case_bool_decide; [|done].
  intros [= <-]. by rewrite length_insert.
Qed.

Lemma nth_set_eq {X} (l l' : list X) i v :
  JS.set l i v = Some l' → JS.nth l' i = Some v.
Proof.
  unfold JS.set, JS.nth, JS.len. case_bool_decide as Hi; [|done].
  intros [= <-]. rewrite bool_decide_eq_true_2 by lia.
  apply list_lookup_insert_eq. lia.
Qed.

Lemma nth_set_ne {X} (l l' : list X) i j v :
  JS.set l i v = Some l' → j ≠ i → JS.nth l' j = JS.nth l j.
Proof.
  unfold JS.set, JS.nth, JS.len. case_bool_decide as Hi; [|done].
  intros [= <-] Hne. case_bool_decide; [|done].
  apply list_lookup_insert_ne. lia.
Qed.

Lemma len_fill {X} n (v : X) : 0 ≤ n → JS.len (JS.fill n v) = n.
Proof. intros. unfold JS.len, JS.fill. rewrite length_replicate. lia. Qed.

Lemma nth_fill {X} n (v : X) i : 0 ≤ i < n → JS.nth (JS.fill n v) i = Some v.
Proof.
  intros. unfold JS.nth, JS.fill. rewrite bool_decide_eq_true_2 by lia.
  apply lookup_replicate_2. lia.
Qed.

Lemma js_eq_true x y : js_eq x y = true ↔ x = y.
Proof. unfold js_eq. apply bool_decide_eq_true. Qed.

Lemma js_eq_false x y : js_eq x y = false ↔ x ≠ y.
Proof. unfold js_eq. apply bool_decide_eq_false. Qed.

(** ** Loops *)

Lemma while_unfold {St : Type} (cond : St → bool) (body : St → option St)
    fuel s :
  while cond body fuel s
  = if cond s then
      match fuel with
      | O => None
      | S fuel' => s' ← body s; while cond body fuel' s'
      end
    else Some s.
Proof. by destruct fuel. Qed.

(** The rule of [while]: an invariant that the body keeps, together with
    a variant that the body decreases, holds at the exit, and the loop
    does exit when the fuel covers the variant. *)
Lemma while_rule {St : Type} (cond : St → bool) (body : St → option St)
    (Inv : St → Prop) (var : St → nat) :
  (∀ s, Inv s → cond s = true →
     ∃ s', body s = Some s' ∧ Inv s' ∧ (var s' < var s)%nat) →
  ∀ fuel s, Inv s → (var s ≤ fuel)%nat →
    ∃ s', while cond body fuel s = Some s' ∧ Inv s' ∧ cond s' = false.
Proof.
  intros Hbody fuel. induction fuel as [|fuel IH]; intros s Hs Hv;
    rewrite while_unfold; destruct (cond s) eqn:Ec; eauto;
    destruct (Hbody s Hs Ec) as (s' & Hs' & Hinv & Hlt); [lia|].
  rewrite Hs'; simpl. apply IH; [done|lia].
Qed.

(** ** Borders of the prefixes of a pattern *)

Section Prefix.

Variable p : list A.

(** The prefix of length [b] of [p] is a suffix of its prefix of
    length [k]. *)
Definition pre_border (k b : Z) : Prop :=
  0 ≤ b ≤ k ∧ ∀ x, 0 ≤ x < b → JS.nth p x = JS.nth p (k - b + x).

(** [v] is the length of the longest proper border of [p[0..k]]. *)
Definition is_lps (k v : Z) : Prop :=
  pre_border (k + 1) v ∧ v < k + 1 ∧
  ∀ b, pre_border (k + 1) b → b < k + 1 → b ≤ v.

Lemma pre_border_0 k : 0 ≤ k → pre_border k 0.
Proof. intros. split; [lia|]. intros; lia. Qed.

Lemma pre_border_trans k b c :
  pre_border k b → pre_border b c → pre_border k c.
Proof.
  intros [Hb Hkb] [Hc Hbc]. split; [lia|]. intros x Hx.
  rewrite Hbc by done. rewrite Hkb by lia. f_equal. lia.
Qed.

Lemma pre_border_le k b c :
  pre_border k b → pre_border k c → c ≤ b → pre_border b c.
Proof.
  intros [Hb Hkb] [Hc Hkc] Hle. split; [lia|]. intros x Hx.
  rewrite Hkc by done. rewrite (Hkb (b - c + x)) by lia. f_equal. lia.
Qed.

Lemma pre_border_pred k b :
  pre_border (k + 1) b → 0 < b → pre_border k (b - 1).
Proof.
  intros [Hb Hkb] Hpos. split; [lia|]. intros x Hx.
  rewrite Hkb by lia. f_equal. lia.
Qed.

Lemma pre_border_succ k b :
  pre_border k b → JS.nth p b = JS.nth p k → pre_border (k + 1) (b + 1).
Proof.
  intros [Hb Hkb] Heq. split; [lia|]. intros x Hx.
  destruct (decide (x = b)) as [->|].
  - rewrite Heq. f_equal. lia.
  - rewrite Hkb by lia. f_equal. lia.
Qed.

Lemma pre_border_last k b :
  pre_border (k + 1) b → 0 < b → JS.nth p (b - 1) = JS.nth p k.
Proof. intros [Hb Hkb] Hpos. rewrite Hkb by lia. f_equal. lia. Qed.

(** The invariant of the loop of [computeLPS]. *)
Definition lps_inv (st : LPSState) : Prop :=
  JS.len (lp_lps st) = JS.len p ∧
  1 ≤ lp_i st ≤ JS.len p ∧
  lp_len st < lp_i st ∧
  pre_border (lp_i st) (lp_len st) ∧
  (∀ b, pre_border (lp_i st + 1) b → b < lp_i st + 1 → b ≤ lp_len st + 1) ∧
  (∀ k, 0 ≤ k < lp_i st → ∃ v, JS.nth (lp_lps st) k = Some v ∧ is_lps k v).

Definition lps_var (st : LPSState) : nat :=
  Z.to_nat (2 * (JS.len p - lp_i st) + lp_len st).

Lemma lps_body_inv st :
  lps_inv st → lps_cond p st = true →
  ∃ st', lps_body p st = Some st' ∧ lps_inv st' ∧ (lps_var st' < lps_var st)%nat.
Proof.
  destruct st as [lps log len i].
  unfold lps_inv, lps_cond, lps_body, lps_var; simpl.
  intros (Hlen & Hi & Hlt & Ha & Hb & Hc) Hcond.
  apply Z.ltb_lt in Hcond.
  assert (0 ≤ len) as Hlen0 by (destruct Ha; lia).
  destruct (js_eq (JS.nth p i) (JS.nth p len)) eqn:Eq.
  - apply js_eq_true in Eq.
    destruct (set_is_Some lps i (len + 1)) as [lps' Hset]; [lia|].
    rewrite Hset; simpl. eexists; split; [done|]; simpl.
    assert (pre_border (i + 1) (len + 1)) as Hnew
      by (by apply pre_border_succ).
    split_and!; try lia.
    + by rewrite (set_len _ _ _ _ Hset).
    + done.
    + intros b Hbb Hlt'. destruct (decide (b = 0)) as [->|]; [lia|].
      pose proof (proj1 Hbb).
      apply pre_border_pred in Hbb; [|lia].
      specialize (Hb (b - 1) Hbb). lia.
    + intros k Hk. destruct (decide (k = i)) as [->|].
      * exists (len + 1). rewrite (nth_set_eq _ _ _ _ Hset).
        split; [done|]. split_and!; [done|lia|]. intros b Hbb Hlt'. by apply Hb.
      * rewrite (nth_set_ne _ _ _ _ _ Hset) by done. apply Hc. lia.
  - apply js_eq_false in Eq.
    destruct (len =? 0) eqn:E0; simpl.
    + apply Z.eqb_eq in E0 as ->.
      destruct (set_is_Some lps i 0) as [lps' Hset]; [lia|].
      rewrite Hset; simpl. eexists; split; [done|]; simpl.
      assert (∀ b, pre_border (i + 1) b → b < i + 1 → b ≤ 0) as Hmax.
      { intros b Hbb Hlt'. specialize (Hb b Hbb Hlt').
        destruct (decide (b = 1)) as [->|]; [|lia].
        apply pre_border_last in Hbb; [|lia]. rewrite Z.sub_diag in Hbb. congruence. }
      split_and!; try lia.
      * by rewrite (set_len _ _ _ _ Hset).
      * apply pre_border_0. lia.
      * intros b Hbb Hlt'. destruct (decide (b = 0)) as [->|]; [lia|].
        pose proof (proj1 Hbb).
        apply pre_border_pred in Hbb; [|lia].
        specialize (Hmax (b - 1) Hbb). lia.
      * intros k Hk. destruct (decide (k = i)) as [->|].
        -- exists 0. rewrite (nth_set_eq _ _ _ _ Hset).
           split; [done|]. split_and!; [apply pre_border_0; lia|lia|done].
        -- rewrite (nth_set_ne _ _ _ _ _ Hset) by done. apply Hc. lia.
    + apply Z.eqb_neq in E0.
      destruct (Hc (len - 1)) as (v & Hv & Hvb & Hvlt & Hvmax); [lia|].
      rewrite Hv; simpl. eexists; split; [done|]; simpl.
      replace (len - 1 + 1) with len in * by lia.
      assert (0 ≤ v) by (destruct Hvb; lia).
      split_and!; try lia.
      * by apply pre_border_trans with len.
      * intros b Hbb Hlt'. specialize (Hb b Hbb Hlt').
        destruct (decide (b = 0)) as [->|]; [lia|].
        assert (b ≠ len + 1).
        { intros ->. apply pre_border_last in Hbb; [|lia].
          replace (len + 1 - 1) with len in Hbb by lia. congruence. }
        pose proof (proj1 Hbb).
        apply pre_border_pred in Hbb; [|lia].
        assert (pre_border len (b - 1)) as Hbl
          by (apply pre_border_le with i; [done|done|lia]).
        specialize (Hvmax (b - 1) Hbl). lia.
      * done.
Qed.

(** [computeLPS] returns, and its table holds the longest proper border
    of every prefix. *)
Lemma computeLPS_correct :
  1 ≤ JS.len p →
  ∃ lps log, computeLPS p = Some (lps, log) ∧
    JS.len lps = JS.len p ∧
    ∀ k, 0 ≤ k < JS.len p → ∃ v, JS.nth lps k = Some v ∧ is_lps k v.
Proof.
  intros Hm. unfold computeLPS.
  destruct (while_rule (lps_cond p) (lps_body p) lps_inv lps_var
              lps_body_inv (2 * length p)
              (mkLPS (JS.fill (JS.len p) 0) [] 0 1))
    as (st & -> & Hinv & Hexit).
  - unfold lps_inv; simpl. split_and!; try lia.
    + apply len_fill. lia.
    + apply pre_border_0. lia.
    + intros k Hk. assert (k = 0) as -> by lia. exists 0.
      rewrite nth_fill by lia. split; [done|].
      split_and!; [apply pre_border_0; lia|lia|].
      intros b [Hb _] ?. lia.
  - unfold lps_var, JS.len in *; simpl. lia.
  - simpl. destruct Hinv as (Hlen & Hi & _ & _ & _ & Hc).
    unfold lps_cond in Hexit. apply Z.ltb_ge in Hexit.
    exists (lp_lps st), (lp_log st). split_and!; [done|done|].
    intros k Hk. apply Hc. lia.
Qed.

End Prefix.

(** ** Occurrences *)

Lemma occurs_at_index text pattern s :
  occurs_at text pattern s ↔
  0 ≤ s ∧ ∀ x, 0 ≤ x < JS.len pattern →
               JS.nth text (s + x) = JS.nth pattern x.
Proof.
  unfold occurs_at. split; intros [Hs Hocc]; (split; [done|]).
  - intros x Hx. unfold JS.len in Hx.
    assert (pattern !! Z.to_nat x
            = take (length pattern) (drop (Z.to_nat s) text) !! Z.to_nat x)
      as Heq by (by rewrite Hocc).
    rewrite lookup_take_lt, lookup_drop in Heq by lia.
    unfold JS.nth. rewrite !bool_decide_eq_true_2 by lia.
    rewrite Heq. f_equal. lia.
  - apply list_eq. intros k.
    destruct (decide (k < length pattern)%nat) as [Hk|Hk].
    + rewrite lookup_take_lt, lookup_drop by done.
      specialize (Hocc (Z.of_nat k)). unfold JS.len in Hocc.
      rewrite nth_lookup in Hocc. rewrite <- Hocc by lia.
      unfold JS.nth. rewrite bool_decide_eq_true_2 by lia.
      f_equal. lia.
    + rewrite lookup_take_ge by lia. symmetry. apply lookup_ge_None. lia.
Qed.

Lemma occurs_at_bound text pattern s :
  1 ≤ JS.len pattern → occurs_at text pattern s →
  s + JS.len pattern ≤ JS.len text.
Proof.
  intros Hm [Hs Hocc]%occurs_at_index.
  specialize (Hocc (JS.len pattern - 1)).
  destruct (nth_is_Some pattern (JS.len pattern - 1)) as [c Hc]; [lia|].
  rewrite Hc in Hocc. apply nth_Some_inv in Hocc; lia.
Qed.

Lemma filter_none {X} (P : X → Prop) `{!∀ x, Decision (P x)} (l : list X) :
  (∀ x, x ∈ l → ¬ P x) → filter P l = [].
Proof.
  induction l as [|x l IH]; intros Hno; [done|].
  rewrite filter_cons_False by (apply Hno; left).
  apply IH. intros y Hy. apply Hno. by right.
Qed.

(** The occurrences found below a window start do not change when the
    window moves over positions that hold no occurrence. *)
Lemma filter_seqZ_skip (P : Z → Prop) `{!∀ s, Decision (P s)} a b :
  a ≤ b → (∀ s, 0 ≤ s → a ≤ s < b → ¬ P s) →
  filter P (seqZ 0 b) = filter P (seqZ 0 a).
Proof.
  intros Hab Hno. destruct (decide (b ≤ 0)).
  { by rewrite !seqZ_nil by lia. }
  assert (seqZ 0 a = seqZ 0 (Z.max 0 a)) as ->.
  { destruct (decide (a ≤ 0)); [|f_equal; lia].
    rewrite (seqZ_nil 0 a) by lia. by replace (Z.max 0 a) with 0 by lia. }
  replace b with (Z.max 0 a + (b - Z.max 0 a)) at 1 by lia.
  rewrite seqZ_app, filter_app by lia.
  rewrite (filter_none P (seqZ _ (b - _))); [by rewrite app_nil_r|].
  intros s Hs%elem_of_seqZ. apply Hno; lia.
Qed.

Lemma filter_seqZ_hit (P : Z → Prop) `{!∀ s, Decision (P s)} a b :
  0 ≤ a < b → P a → (∀ s, a < s < b → ¬ P s) →
  filter P (seqZ 0 b) = filter P (seqZ 0 a) ++ [a].
Proof.
  intros Hab Ha Hno.
  rewrite (filter_seqZ_skip P (a + 1) b) by (intros; try apply Hno; lia).
  rewrite seqZ_app, filter_app by lia. f_equal.
  rewrite seqZ_cons, seqZ_nil by lia. by rewrite filter_cons_True.
Qed.

(** ** Well-formed steps *)

(** The coordinates of the comparison a step records. *)
Definition cmp_coord (st : Step) : option (Z * Z) :=
  c ← lastComparison st; Some (textIndex c, patternIndex c).

(** The window start a step of kind Align records. *)
Definition align_start (st : Step) : option Z :=
  match action st with
  | ActAlign s => windowStart st
  | _ => None
  end.

(** A recorded comparison lies in the window of its step, the window has
    the length of the pattern and starts at [textIndex - patternIndex],
    and the flag tells whether the two characters are equal. *)
Definition step_cmp_ok (text pattern : list A) (st : Step) : Prop :=
  ∀ c, lastComparison st = Some c →
    0 ≤ patternIndex c < JS.len pattern ∧
    cmatch c = js_eq (JS.nth text (textIndex c))
                     (JS.nth pattern (patternIndex c)) ∧
    windowStart st = Some (textIndex c - patternIndex c) ∧
    windowEnd st
    = Some (textIndex c - patternIndex c + JS.len pattern - 1).

(** Which window bounds a step carries, by kind; no step pushed by a loop
    is the Complete step. *)
Definition step_shape (st : Step) : Prop :=
  match action st with
  | ActComplete => False
  | ActIncrement => windowStart st = None ∧ windowEnd st = None
  | ActShiftAfterMatch _ | ActShift _ _ _ =>
      is_Some (windowStart st) ∧ windowEnd st = None
  | _ => is_Some (windowStart st) ∧ is_Some (windowEnd st)
  end.

(** The shift recorded by a step of kind ShiftDecision. *)
Definition step_shift_ok (st : Step) : Prop :=
  match action st with
  | ActShiftAfterMatch shift => 1 ≤ shift
  | ActShift bc gs shift => 1 ≤ shift ∧ shift = Z.max bc gs
  | _ => True
  end.

Definition step_wf (text pattern : list A) (st : Step) : Prop :=
  step_cmp_ok text pattern st ∧ step_shape st ∧ step_shift_ok st.

(** The window bounds that the kinds Align, Compare, MatchFound, Fallback
    and ShiftDecision carry; nothing is asked of the other two kinds. *)
Definition step_bounds (st : Step) : Prop :=
  match action st with
  | ActIncrement | ActComplete => True
  | ActShiftAfterMatch _ | ActShift _ _ _ =>
      is_Some (windowStart st) ∧ windowEnd st = None
  | _ => is_Some (windowStart st) ∧ is_Some (windowEnd st)
  end.

Lemma step_shape_bounds st : step_shape st → step_bounds st.
Proof. unfold step_shape, step_bounds. by destruct (action st). Qed.

Lemma totalComparisons_omap (steps : list Step) :
  totalComparisons steps = JS.len (omap cmp_coord steps).
Proof.
  unfold totalComparisons, JS.len. f_equal.
  induction steps as [|st steps IH]; [done|].
  rewrite filter_cons. simpl. unfold cmp_coord at 1.
  destruct (decide (is_Some (lastComparison st))) as [[c Hc]|Hn].
  - rewrite Hc. simpl. by rewrite IH.
  - destruct (lastComparison st) eqn:E; [destruct Hn; eauto|]. done.
Qed.

(** ** The KMP search *)

Section KMP.

Variables text pattern : list A.
Variable lps : list Z.
Hypothesis Hm : 1 ≤ JS.len pattern.
Hypothesis Hlps : ∀ k, 0 ≤ k < JS.len pattern →
  ∃ v, JS.nth lps k = Some v ∧ is_lps pattern k v.

Lemma lps_read j :
  1 ≤ j ≤ JS.len pattern →
  is_lps pattern (j - 1) (JS.nullish (JS.nth lps (j - 1)) 0).
Proof.
  intros Hj. destruct (Hlps (j - 1)) as (v & -> & Hv); [lia|]. done.
Qed.

(** The window [text[i-j .. i)] holds the first [j] characters of the
    pattern, and [matches] lists the occurrences that start before it. *)
Definition kmp_inv (st : KMPState) : Prop :=
  0 ≤ ks_j st < JS.len pattern ∧
  ks_j st ≤ ks_i st ≤ JS.len text ∧
  (∀ x, 0 ≤ x < ks_j st →
     JS.nth text (ks_i st - ks_j st + x) = JS.nth pattern x) ∧
  ks_matches st
  = filter (occurs_at text pattern) (seqZ 0 (ks_i st - ks_j st)).

Definition kmp_var (st : KMPState) : nat :=
  Z.to_nat (2 * (JS.len text - ks_i st) + ks_j st).

(** No occurrence starts strictly inside a window whose first [j]
    characters are matched, nearer to its end than the longest border
    allows. *)
Lemma kmp_no_occurrence i j v s :
  0 ≤ j ≤ JS.len pattern → j ≤ i → 0 ≤ v →
  (∀ x, 0 ≤ x < j → JS.nth text (i - j + x) = JS.nth pattern x) →
  (∀ b, pre_border pattern j b → b < j → b ≤ v) →
  i - j < s < i - v → ¬ occurs_at text pattern s.
Proof.
  intros Hj Hji Hv Hwin Hmax Hs [Hs0 Hocc]%occurs_at_index.
  assert (pre_border pattern j (i - s)) as Hb.
  { split; [lia|]. intros x Hx.
    rewrite <- Hocc by lia. rewrite <- Hwin by lia. f_equal. lia. }
  specialize (Hmax _ Hb). lia.
Qed.

Lemma kmp_window_shift i j v :
  (∀ x, 0 ≤ x < j → JS.nth text (i - j + x) = JS.nth pattern x) →
  pre_border pattern j v →
  ∀ x, 0 ≤ x < v → JS.nth text (i - v + x) = JS.nth pattern x.
Proof.
  intros Hwin [Hv Hb] x Hx. rewrite Hb by done.
  rewrite <- Hwin by lia. f_equal. lia.
Qed.

Lemma kmp_body_inv st :
  kmp_inv st → kmp_cond text st = true →
  kmp_inv (kmp_body text pattern lps st) ∧
  (kmp_var (kmp_body text pattern lps st) < kmp_var st)%nat.
Proof.
  destruct st as [i j steps matches cmps].
  unfold kmp_inv, kmp_cond, kmp_body, kmp_var; simpl.
  intros (Hj & Hi & Hwin & Hmatches) Hcond. apply Z.ltb_lt in Hcond.
  destruct (js_eq (JS.nth text i) (JS.nth pattern j)) eqn:Eq.
  - apply js_eq_true in Eq.
    assert (∀ x, 0 ≤ x < j + 1 →
              JS.nth text (i + 1 - (j + 1) + x) = JS.nth pattern x) as Hwin'.
    { intros x Hx. destruct (decide (x = j)) as [->|].
      - rewrite <- Eq. f_equal. lia.
      - rewrite <- Hwin by lia. f_equal. lia. }
    destruct (j + 1 =? JS.len pattern) eqn:Em; simpl.
    + apply Z.eqb_eq in Em.
      destruct (lps_read (j + 1)) as (Hvb & Hvlt & Hvmax); [lia|].
      set (v := JS.nullish (JS.nth lps (j + 1 - 1)) 0) in *.
      replace (j + 1 - 1 + 1) with (j + 1) in * by lia.
      assert (0 ≤ v) by (destruct Hvb; lia).
      split; [|lia]. split_and!; try lia.
      * by apply kmp_window_shift with (j + 1).
      * rewrite Hmatches. replace (i + 1 - (j + 1)) with (i - j) by lia.
        symmetry. apply filter_seqZ_hit; [lia| |].
        -- apply occurs_at_index. split; [lia|]. intros x Hx.
           rewrite <- Hwin' by lia. f_equal. lia.
        -- intros s Hs.
           apply (kmp_no_occurrence (i + 1) (j + 1) v);
             [lia|lia|lia|done|done|lia].
    + apply Z.eqb_neq in Em. split; [|lia]. split_and!; try lia.
      * done.
      * rewrite Hmatches. do 2 f_equal. lia.
  - apply js_eq_false in Eq.
    assert (¬ occurs_at text pattern (i - j)) as Hhere.
    { intros [_ Hocc]%occurs_at_index. specialize (Hocc j).
      replace (i - j + j) with i in Hocc by lia. apply Eq, Hocc. lia. }
    destruct (j =? 0) eqn:E0; simpl.
    + apply Z.eqb_eq in E0 as ->. split; [|lia]. split_and!; try lia.
      rewrite Hmatches. symmetry. apply filter_seqZ_skip; [lia|].
      intros s _ Hs. by replace s with (i - 0) by lia.
    + apply Z.eqb_neq in E0.
      destruct (lps_read j) as (Hvb & Hvlt & Hvmax); [lia|].
      set (v := JS.nullish (JS.nth lps (j - 1)) 0) in *.
      replace (j - 1 + 1) with j in * by lia.
      assert (0 ≤ v) by (destruct Hvb; lia).
      split; [|lia]. split_and!; try lia.
      * by apply kmp_window_shift with j.
      * rewrite Hmatches. symmetry. apply filter_seqZ_skip; [lia|].
        intros s _ Hs. destruct (decide (s = i - j)) as [->|]; [done|].
        apply (kmp_no_occurrence i j v); [lia|lia|lia|done|done|lia].
Qed.

(** The trace built so far: every step is well formed, the Compare
    steps are the comparisons made, one for one and in order, and
    their number is paid for by the progress of [i]. *)
Definition kmp_trace_inv (st : KMPState) : Prop :=
  Forall (step_wf text pattern) (ks_steps st) ∧
  omap cmp_coord (ks_steps st) = ks_cmps st ∧
  JS.len (ks_cmps st) + ks_j st ≤ 2 * ks_i st ∧
  ks_i st ≤ JS.len (ks_steps st) ≤ 2 * JS.len (ks_cmps st).

Lemma kmp_body_trace st :
  kmp_inv st → kmp_trace_inv st → kmp_cond text st = true →
  kmp_trace_inv (kmp_body text pattern lps st).
Proof.
  destruct st as [i j steps matches cmps].
  unfold kmp_inv, kmp_trace_inv, kmp_cond, kmp_body; simpl.
  intros (Hj & Hi & _ & _) (Hwf & Hcmps & Hcount & Hsteps) Hcond.
  apply Z.ltb_lt in Hcond. unfold JS.len in Hcount, Hsteps.
  assert (step_wf text pattern
    (mkStep (Some (i - j)) (Some (i - j + JS.len pattern - 1)) (Some i)
       (Some (mkCmp i j (js_eq (JS.nth text i) (JS.nth pattern j))))
       (Some (js_eq (JS.nth text i) (JS.nth pattern j)))
       (ActCompare i (JS.nth text i) j (JS.nth pattern j))
       (if js_eq (JS.nth text i) (JS.nth pattern j)
        then SumMatchAt i j else SumMismatchAt i j))) as Hcmp.
  { split_and!; [|by simpl|done]. intros c [= <-]; simpl. done. }
  destruct (js_eq (JS.nth text i) (JS.nth pattern j)) eqn:Eq.
  - destruct (j + 1 =? JS.len pattern) eqn:Em; simpl.
    + apply Z.eqb_eq in Em.
      destruct (lps_read (j + 1)) as (Hvb & Hvlt & Hvmax); [lia|].
      set (v := JS.nullish (JS.nth lps (j + 1 - 1)) 0) in *.
      split_and!.
      * rewrite !Forall_app, !Forall_singleton. split_and!; done.
      * rewrite !omap_app, Hcmps; simpl. by rewrite app_nil_r.
      * unfold JS.len. rewrite length_app; simpl. lia.
      * unfold JS.len. rewrite !length_app; simpl. lia.
      * unfold JS.len. rewrite !length_app; simpl. lia.
    + split_and!.
      * rewrite !Forall_app, !Forall_singleton. done.
      * rewrite !omap_app, Hcmps; simpl. done.
      * unfold JS.len. rewrite length_app; simpl. lia.
      * unfold JS.len. rewrite !length_app; simpl. lia.
      * unfold JS.len. rewrite !length_app; simpl. lia.
  - destruct (j =? 0) eqn:E0; simpl.
    + apply Z.eqb_eq in E0 as ->. split_and!.
      * rewrite !Forall_app, !Forall_singleton. split_and!; done.
      * rewrite !omap_app, Hcmps; simpl. by rewrite app_nil_r.
      * unfold JS.len. rewrite length_app; simpl. lia.
      * unfold JS.len. rewrite !length_app; simpl. lia.
      * unfold JS.len. rewrite !length_app; simpl. lia.
    + apply Z.eqb_neq in E0.
      destruct (lps_read j) as (Hvb & Hvlt & Hvmax); [lia|].
      set (v := JS.nullish (JS.nth lps (j - 1)) 0) in *.
      split_and!.
      * rewrite !Forall_app, !Forall_singleton. split_and!; done.
      * rewrite !omap_app, Hcmps; simpl. by rewrite app_nil_r.
      * unfold JS.len. rewrite length_app; simpl. lia.
      * unfold JS.len. rewrite !length_app; simpl. lia.
      * unfold JS.len. rewrite !length_app; simpl. lia.
Qed.

Lemma kmp_loop_spec :
  ∃ st, while (kmp_cond text) (λ st, Some (kmp_body text pattern lps st))
          (2 * length text) (mkKMP 0 0 [] [] []) = Some st ∧
        kmp_inv st ∧ kmp_trace_inv st ∧ ks_i st = JS.len text.
Proof.
  destruct (while_rule (kmp_cond text)
              (λ st, Some (kmp_body text pattern lps st))
              (λ st, kmp_inv st ∧ kmp_trace_inv st) kmp_var)
    with (fuel := (2 * length text)%nat) (s := mkKMP 0 0 [] [] [])
    as (st & Hrun & [Hinv Htr] & Hexit).
  - intros st [Hinv Htr] Hcond. eexists; split; [done|].
    destruct (kmp_body_inv st Hinv Hcond) as [Hinv' Hvar].
    split_and!; [done| |done]. by apply kmp_body_trace.
  - split.
    + unfold kmp_inv, JS.len in *; simpl. split_and!; try lia; done.
    + unfold kmp_trace_inv; simpl. split_and!; try done.
  - unfold kmp_var, JS.len; simpl. lia.
  - exists st. split_and!; try done.
    unfold kmp_cond in Hexit. apply Z.ltb_ge in Hexit.
    destruct Hinv as (_ & ? & _). lia.
Qed.

End KMP.

(** ** The good-suffix table *)

(** Closes a goal [nth l c = nth l d] with an equation [nth l a = nth l b]
    whose indices agree with [c] and [d] up to arithmetic. *)
Ltac use_nth E :=
  lazymatch type of E with
  | JS.nth ?l ?a = JS.nth ?l ?b =>
      lazymatch goal with
      | |- JS.nth l ?c = JS.nth l ?d =>
          first
            [ replace c with a by lia; replace d with b by lia; exact E
            | replace c with b by lia; replace d with a by lia;
              symmetry; exact E ]
      end
  end.

Section Suffix.

Variable p : list A.
Hypothesis Hm : 1 ≤ JS.len p.

(** The suffix of [p] from [j] on is a prefix of the suffix from [i]
    on: [j] is a border position of the suffix at [i]. *)
Definition suf_border (i j : Z) : Prop :=
  i ≤ j ≤ JS.len p ∧
  ∀ x, j ≤ x < JS.len p → JS.nth p (x - (j - i)) = JS.nth p x.

(** [v] is the position of the widest proper border of the suffix at
    [i], and [m + 1] when the suffix is empty. *)
Definition is_bpos (i v : Z) : Prop :=
  i < v ≤ JS.len p + 1 ∧
  (v ≤ JS.len p → suf_border i v) ∧
  ∀ j, i < j → suf_border i j → v ≤ j.

(** Shifting the pattern by [d] keeps the suffix matched from [k] on
    and brings a different character under position [k - 1]; this is
    the case where the shifted copy of the suffix lies inside the
    pattern. *)
Definition inner_shift (k d : Z) : Prop :=
  1 ≤ d ∧ 1 ≤ k - d ∧ suf_border (k - d) k ∧
  JS.nth p (k - d - 1) ≠ JS.nth p (k - 1).

(** A shift by [d] is compatible with what a mismatch at pattern index
    [k - 1] (a full match when [k = 0]) has shown of the text. *)
Definition compatible (k d : Z) : Prop :=
  (∀ x, k ≤ x < JS.len p → d ≤ x → JS.nth p (x - d) = JS.nth p x) ∧
  (d ≤ k - 1 → JS.nth p (k - 1 - d) ≠ JS.nth p (k - 1)).

(** No compatible shift is shorter than [v]. *)
Definition good_ok (k v : Z) : Prop :=
  ∀ d, 1 ≤ d → compatible k d → v ≤ d.

Lemma suf_border_end i : i ≤ JS.len p → suf_border i (JS.len p).
Proof. intros. split; [lia|]. intros; lia. Qed.

Lemma suf_border_trans i j k :
  suf_border i j → suf_border j k → suf_border i k.
Proof.
  intros [Hij Hb] [Hjk Hc]. split; [lia|]. intros x Hx.
  pose proof (Hc x ltac:(lia)) as E1.
  pose proof (Hb (x - (k - j)) ltac:(lia)) as E2.
  rewrite <- E1. use_nth E2.
Qed.

Lemma suf_border_le i j k :
  suf_border i j → suf_border i k → j ≤ k → suf_border j k.
Proof.
  intros [Hij Hb] [Hik Hc] Hjk. split; [lia|]. intros x Hx.
  pose proof (Hc x ltac:(lia)) as E1.
  pose proof (Hb (x - (k - j)) ltac:(lia)) as E2.
  rewrite <- E1. symmetry. use_nth E2.
Qed.

Lemma suf_border_extend i j :
  1 ≤ i → suf_border i j → JS.nth p (i - 1) = JS.nth p (j - 1) →
  suf_border (i - 1) (j - 1).
Proof.
  intros Hi [Hij Hb] Heq. split; [lia|]. intros x Hx.
  destruct (decide (x = j - 1)) as [->|].
  - use_nth Heq.
  - pose proof (Hb x ltac:(lia)) as E. use_nth E.
Qed.

Lemma suf_border_shrink i j :
  suf_border (i - 1) (j - 1) → i ≤ j → j ≤ JS.len p →
  suf_border i j ∧ JS.nth p (i - 1) = JS.nth p (j - 1).
Proof.
  intros [Hij Hb] Hle Hj. split.
  - split; [lia|]. intros x Hx.
    pose proof (Hb x ltac:(lia)) as E. use_nth E.
  - pose proof (Hb (j - 1) ltac:(lia)) as E. use_nth E.
Qed.

Definition shift_inv (shift : list Z) (i : Z) : Prop :=
  JS.len shift = JS.len p + 1 ∧
  ∀ k, 0 ≤ k ≤ JS.len p →
    ∃ v, JS.nth shift k = Some v ∧
         (v = JS.len p ∨ 1 ≤ v ≤ k - i - 1) ∧
         ∀ d, inner_shift k d → i < k - d → v ≤ d.

Definition bpos_inv (borderPos : list Z) (i : Z) : Prop :=
  JS.len borderPos = JS.len p + 1 ∧
  ∀ k, i ≤ k ≤ JS.len p →
    ∃ v, JS.nth borderPos k = Some v ∧ is_bpos k v.

(** The invariant of the first pass, at the head of the outer loop. *)
Definition gs_outer_inv (st : GSState) : Prop :=
  0 ≤ gs_i st ≤ JS.len p ∧
  shift_inv (gs_shift st) (gs_i st) ∧
  bpos_inv (gs_borderPos st) (gs_i st) ∧
  JS.nth (gs_borderPos st) (gs_i st) = Some (gs_j st).

(** The invariant of the inner loop of the first pass, for the outer
    index [i] and the table [borderPos] that it only reads. *)
Definition gs_inner_inv (i : Z) (borderPos : list Z) (st : GSState)
    : Prop :=
  gs_i st = i ∧ gs_borderPos st = borderPos ∧
  JS.len (gs_shift st) = JS.len p + 1 ∧
  i < gs_j st ≤ JS.len p + 1 ∧
  (gs_j st ≤ JS.len p → suf_border i (gs_j st)) ∧
  (∀ j', i < j' < gs_j st → suf_border i j' →
         JS.nth p (i - 1) ≠ JS.nth p (j' - 1)) ∧
  ∀ k, 0 ≤ k ≤ JS.len p →
    ∃ v, JS.nth (gs_shift st) k = Some v ∧
         (v = JS.len p ∨ 1 ≤ v ≤ k - i) ∧
         (∀ d, inner_shift k d → i < k - d → v ≤ d) ∧
         (i < k < gs_j st → suf_border i k → v ≤ k - i).

Definition gs_inner_var (st : GSState) : nat :=
  Z.to_nat (JS.len p + 1 - gs_j st).

Lemma gs_inner_body_inv i borderPos st :
  1 ≤ i → bpos_inv borderPos i →
  gs_inner_inv i borderPos st → gs_inner_cond p st = true →
  ∃ st', gs_inner_body p st = Some st' ∧ gs_inner_inv i borderPos st' ∧
         (gs_inner_var st' < gs_inner_var st)%nat.
Proof.
  destruct st as [shift bp i' j].
  unfold gs_inner_inv, gs_inner_cond, gs_inner_body, gs_inner_var; simpl.
  intros Hi [Hbl Hbp] (-> & -> & Hsl & Hj & Hbord & Hmis & Hshift) Hcond.
  apply andb_true_iff in Hcond as [Hjm Hne].
  apply Z.leb_le in Hjm. apply negb_true_iff, js_eq_false in Hne.
  specialize (Hbord Hjm).
  destruct (Hshift j) as (sj & Hsj & Hsjb & Hsjs & _); [lia|].
  destruct (Hbp j) as (j' & Hj' & Hjj & Hjb & Hjmin); [lia|].
  rewrite Hsj; simpl.
  assert (∃ shift', (if sj =? JS.len p then JS.set shift j (j - i)
                     else Some shift) = Some shift' ∧
            JS.len shift' = JS.len p + 1 ∧
            (∀ k, k ≠ j → JS.nth shift' k = JS.nth shift k) ∧
            ∃ v, JS.nth shift' j = Some v ∧ 1 ≤ v ≤ j - i ∧
                 (sj ≠ JS.len p → v = sj))
    as (shift' & -> & Hsl' & Hother & v & Hv & Hvb & Hvs).
  { destruct (sj =? JS.len p) eqn:Es.
    - destruct (set_is_Some shift j (j - i)) as [shift' Hset]; [lia|].
      exists shift'. split; [done|]. split_and!.
      + by rewrite (set_len _ _ _ _ Hset).
      + intros k Hk. by apply (nth_set_ne _ _ _ _ _ Hset).
      + exists (j - i). rewrite (nth_set_eq _ _ _ _ Hset).
        apply Z.eqb_eq in Es. split_and!; [done|lia|lia|done].
    - exists shift. apply Z.eqb_neq in Es. split_and!; try done.
      exists sj. split_and!; [done|lia|lia|done]. }
  simpl. rewrite Hj'; simpl. eexists; split; [done|]; simpl.
  split_and!; try done; try lia.
  - intros Hj'm. apply suf_border_trans with j; auto.
  - intros k Hk Hbk. destruct (decide (k < j)); [apply Hmis; [lia|done]|].
    destruct (decide (k = j)) as [->|]; [done|].
    assert (suf_border j k) as Hjk by (apply suf_border_le with i; [done|done|lia]).
    specialize (Hjmin k ltac:(lia) Hjk). lia.
  - intros k Hk. destruct (decide (k = j)) as [->|Hkj].
    + exists v. split_and!; [done|lia| |lia].
      intros d Hd Hlt. destruct (decide (sj = JS.len p)) as [Heq|Hneq].
      * specialize (Hsjs d Hd Hlt). destruct Hd as (? & ? & _). lia.
      * rewrite (Hvs Hneq). by apply Hsjs.
    + rewrite Hother by done.
      destruct (Hshift k Hk) as (vk & Hvk & Hvkb & Hvks & Hvkc).
      exists vk. split_and!; try done.
      intros Hkr Hbk. destruct (decide (k < j)); [apply Hvkc; [lia|done]|].
      assert (suf_border j k) as Hjk by (apply suf_border_le with i; [done|done|lia]).
      specialize (Hjmin k ltac:(lia) Hjk). lia.
Qed.

Lemma gs_outer_body_inv st :
  gs_outer_inv st → gs_outer_cond st = true →
  ∃ st', gs_outer_body p st = Some st' ∧ gs_outer_inv st' ∧
         (Z.to_nat (gs_i st') < Z.to_nat (gs_i st))%nat.
Proof.
  destruct st as [shift bp i j].
  unfold gs_outer_inv, gs_outer_cond, gs_outer_body; simpl.
  intros (Hi & [Hsl Hshift] & [Hbl Hbp] & Hj) Hcond.
  apply Z.ltb_lt in Hcond.
  destruct (Hbp i) as (j0 & Hj0 & Hjj & Hjb & Hjmin); [lia|].
  assert (j0 = j) as -> by congruence.
  destruct (while_rule (gs_inner_cond p) (gs_inner_body p)
              (gs_inner_inv i bp) gs_inner_var)
    with (fuel := S (length p)) (s := mkGS shift bp i j)
    as ([shift1 bp1 i1 j1] & -> & Hinv & Hexit).
  - intros st Hst Hc. apply gs_inner_body_inv; [lia|done|done|done].
  - unfold gs_inner_inv; simpl. split_and!; try done; try lia.
    + intros j' Hj' Hb. specialize (Hjmin j' ltac:(lia) Hb). lia.
    + intros k Hk. destruct (Hshift k Hk) as (v & Hv & Hvb & Hvs).
      exists v. split_and!; [done|lia|done|].
      intros Hkj Hb. specialize (Hjmin k ltac:(lia) Hb). lia.
  - unfold gs_inner_var, JS.len; simpl. unfold JS.len in *. lia.
  - unfold gs_inner_inv, gs_inner_cond in Hinv, Hexit; simpl in *.
    destruct Hinv as (-> & -> & Hsl1 & Hj1 & Hbord & Hmis & Hshift1).
    assert (j1 ≤ JS.len p → JS.nth p (i - 1) = JS.nth p (j1 - 1)) as Heq.
    { intros Hle. apply andb_false_iff in Hexit as [Hf|Hf].
      - apply Z.leb_gt in Hf. lia.
      - by apply negb_false_iff, js_eq_true in Hf. }
    destruct (set_is_Some bp (i - 1) (j1 - 1)) as [bp' Hset]; [lia|].
    rewrite Hset; simpl. eexists; split; [done|]; simpl.
    split_and!; try lia.
    + split; [done|]. intros k Hk.
      destruct (Hshift1 k Hk) as (v & Hv & Hvb & Hvs & Hvc).
      exists v. split_and!; [done|lia|].
      intros d Hd Hlt. destruct (decide (i < k - d)); [by apply Hvs|].
      assert (d = k - i) as -> by lia.
      destruct Hd as (Hd1 & Hd2 & Hdb & Hdne).
      replace (k - (k - i)) with i in * by lia.
      destruct (decide (k < j1)); [apply Hvc; [lia|done]|].
      specialize (Hbord ltac:(lia)). specialize (Heq ltac:(lia)).
      destruct (decide (k = j1)) as [->|]; [done|].
      assert (v ≤ k - j1); [|lia]. apply Hvs; [|lia].
      split_and!; try lia; replace (k - (k - j1)) with j1 by lia.
      * apply suf_border_le with i; [done|done|lia].
      * congruence.
    + split; [by rewrite (set_len _ _ _ _ Hset)|]. intros k Hk.
      destruct (decide (k = i - 1)) as [->|].
      * exists (j1 - 1). rewrite (nth_set_eq _ _ _ _ Hset).
        split; [done|]. split_and!; try lia.
        -- intros Hle. destruct (decide (j1 ≤ JS.len p)).
           ++ apply suf_border_extend; auto with lia.
           ++ replace (j1 - 1) with (JS.len p) by lia.
              apply suf_border_end. lia.
        -- intros j'' Hlt Hb. pose proof (proj1 Hb).
           destruct (decide (j'' = JS.len p)); [lia|].
           replace j'' with (j'' + 1 - 1) in Hb by lia.
           apply suf_border_shrink in Hb as [Hb Hc]; [|lia|lia].
           destruct (decide (j'' + 1 < j1)); [|lia].
           by destruct (Hmis (j'' + 1) ltac:(lia) Hb).
      * rewrite (nth_set_ne _ _ _ _ _ Hset) by done. apply Hbp. lia.
    + apply (nth_set_eq _ _ _ _ Hset).
Qed.

(** The invariant of the second pass. *)
Definition gs_fill_inv (borderPos : list Z) (st : GSState) : Prop :=
  gs_borderPos st = borderPos ∧
  0 ≤ gs_i st ≤ JS.len p + 1 ∧
  JS.len (gs_shift st) = JS.len p + 1 ∧
  (gs_i st ≤ gs_j st ∧ 1 ≤ gs_j st ≤ JS.len p + 1) ∧
  (gs_j st ≤ JS.len p → suf_border 0 (gs_j st)) ∧
  (∀ j', 1 ≤ j' → gs_i st ≤ j' → suf_border 0 j' → gs_j st ≤ j') ∧
  ∀ k, 0 ≤ k ≤ JS.len p →
    ∃ v, JS.nth (gs_shift st) k = Some v ∧
         (k < gs_i st →
            1 ≤ v ≤ JS.len p ∧ good_ok k v ∧ (k = 0 → suf_border 0 v)) ∧
         (gs_i st ≤ k →
            (v = JS.len p ∨ 1 ≤ v ≤ k - 1) ∧
            ∀ d, inner_shift k d → v ≤ d).

Lemma inner_shift_of_compatible k d :
  0 ≤ k ≤ JS.len p → 1 ≤ d ≤ k - 1 → compatible k d → inner_shift k d.
Proof.
  intros Hk Hd [Hc Hne]. split_and!; try lia.
  - split; [lia|]. intros x Hx. replace (k - (k - d)) with d by lia.
    apply Hc; lia.
  - replace (k - d - 1) with (k - 1 - d) by lia. apply Hne. lia.
Qed.

Lemma gs_fill_body_inv borderPos st :
  bpos_inv borderPos 0 →
  gs_fill_inv borderPos st → gs_fill_cond p st = true →
  ∃ st', gs_fill_body p st = Some st' ∧ gs_fill_inv borderPos st' ∧
         (Z.to_nat (JS.len p + 1 - gs_i st')
          < Z.to_nat (JS.len p + 1 - gs_i st))%nat.
Proof.
  destruct st as [shift bp i j].
  unfold gs_fill_inv, gs_fill_cond, gs_fill_body; simpl.
  intros [Hbl Hbp] (-> & Hi & Hsl & Hj & Hbord & Hmin & Hshift) Hcond.
  apply Z.leb_le in Hcond.
  assert (j ≤ JS.len p) as Hjm
    by (apply Hmin; [lia|lia|apply suf_border_end; lia]).
  specialize (Hbord Hjm).
  destruct (Hshift i) as (si & Hsi & _ & Hsib); [lia|].
  destruct (Hsib ltac:(lia)) as [Hsibd Hsis]. clear Hsib.
  rewrite Hsi; simpl.
  assert (∃ shift', (if si =? JS.len p then JS.set shift i j
                     else Some shift) = Some shift' ∧
            JS.len shift' = JS.len p + 1 ∧
            (∀ k, k ≠ i → JS.nth shift' k = JS.nth shift k) ∧
            ∃ v, JS.nth shift' i = Some v ∧
                 (si = JS.len p → v = j) ∧ (si ≠ JS.len p → v = si))
    as (shift' & -> & Hsl' & Hother & v & Hv & Hvj & Hvs).
  { destruct (si =? JS.len p) eqn:Es.
    - destruct (set_is_Some shift i j) as [shift' Hset]; [lia|].
      exists shift'. split; [done|]. split_and!.
      + by rewrite (set_len _ _ _ _ Hset).
      + intros k Hk. by apply (nth_set_ne _ _ _ _ _ Hset).
      + exists j. rewrite (nth_set_eq _ _ _ _ Hset).
        apply Z.eqb_eq in Es. done.
    - exists shift. apply Z.eqb_neq in Es. split_and!; try done.
      exists si. done. }
  simpl.
  assert (∃ j', (if i =? j then JS.nth borderPos j else Some j) = Some j' ∧
            (i + 1 ≤ j' ∧ 1 ≤ j' ≤ JS.len p + 1) ∧
            (j' ≤ JS.len p → suf_border 0 j') ∧
            (∀ j'', 1 ≤ j'' → i + 1 ≤ j'' → suf_border 0 j'' → j' ≤ j''))
    as (j' & -> & Hj' & Hbord' & Hmin').
  { destruct (i =? j) eqn:Eij.
    - apply Z.eqb_eq in Eij as ->.
      destruct (Hbp j) as (j' & Hjj' & Hjlt & Hjb & Hjmin); [lia|].
      exists j'. split_and!; try done; try lia.
      + intros Hle. apply suf_border_trans with j; auto.
      + intros j'' _ Hlt Hb. apply Hjmin; [lia|].
        apply suf_border_le with 0; [done|done|lia].
    - apply Z.eqb_neq in Eij. exists j. split_and!; try done; try lia.
      intros j'' H1 Hlt Hb. apply Hmin; [done|lia|done]. }
  simpl. eexists; split; [done|]; simpl.
  split_and!; try done; try lia.
  intros k Hk. destruct (decide (k = i)) as [->|Hki].
  - exists v. split; [done|]. split; [|lia]. intros _. split_and!.
    + destruct (decide (si = JS.len p)) as [Heq|Hneq].
      * rewrite (Hvj Heq). lia.
      * rewrite (Hvs Hneq). lia.
    + destruct (decide (si = JS.len p)) as [Heq|Hneq].
      * rewrite (Hvj Heq). lia.
      * rewrite (Hvs Hneq). lia.
    + intros d Hd Hc. destruct (decide (d ≤ i - 1)).
      * assert (si ≤ d) as Hle
          by (apply Hsis, inner_shift_of_compatible; [lia|lia|done]).
        rewrite Hvs; lia.
      * assert (v ≤ JS.len p ∧ v ≤ Z.max si j) as [Hv1 Hv2].
        { destruct (decide (si = JS.len p)) as [Heq|Hneq].
          - rewrite (Hvj Heq). lia.
          - rewrite (Hvs Hneq). lia. }
        destruct (decide (JS.len p ≤ d)); [lia|].
        assert (j ≤ d); [|destruct (decide (si = JS.len p));
                            [rewrite Hvj by done|rewrite Hvs by done]; lia].
        apply Hmin; [lia|lia|]. split; [lia|]. intros x Hx.
        replace (x - (d - 0)) with (x - d) by lia.
        apply (proj1 Hc); lia.
    + intros ->. rewrite Hvj by lia. done.
  - rewrite Hother by done.
    destruct (Hshift k Hk) as (vk & Hvk & Hvk1 & Hvk2).
    exists vk. split; [done|]. split; intros Hlt.
    + apply Hvk1. lia.
    + apply Hvk2. lia.
Qed.

(** [computeGoodSuffix] returns a table of [m + 1] shifts between [1]
    and [m], none of them longer than a compatible shift. *)
Lemma computeGoodSuffix_correct :
  ∃ good, computeGoodSuffix p = Some good ∧
    JS.len good = JS.len p + 1 ∧
    ∀ k, 0 ≤ k ≤ JS.len p →
      ∃ v, JS.nth good k = Some v ∧ 1 ≤ v ≤ JS.len p ∧ good_ok k v ∧
           (k = 0 → suf_border 0 v).
Proof.
  unfold computeGoodSuffix.
  destruct (set_is_Some (JS.fill (JS.len p + 1) 0) (JS.len p)
              (JS.len p + 1)) as [bp0 Hset].
  { rewrite len_fill; lia. }
  rewrite Hset; simpl.
  pose proof (set_len _ _ _ _ Hset) as Hbl0. rewrite len_fill in Hbl0 by lia.
  destruct (while_rule gs_outer_cond (gs_outer_body p) gs_outer_inv
              (λ st, Z.to_nat (gs_i st)) gs_outer_body_inv)
    with (fuel := length p)
         (s := mkGS (JS.fill (JS.len p + 1) (JS.len p)) bp0
                 (JS.len p) (JS.len p + 1))
    as ([shift1 bp1 i1 j1] & -> & Hinv & Hexit).
  - unfold gs_outer_inv; simpl. split_and!; try lia.
    + split; [apply len_fill; lia|]. intros k Hk. exists (JS.len p).
      rewrite nth_fill by lia. split_and!; [done|lia|].
      intros d (? & ? & _) ?. lia.
    + split; [done|]. intros k Hk. assert (k = JS.len p) as -> by lia.
      exists (JS.len p + 1). rewrite (nth_set_eq _ _ _ _ Hset).
      split; [done|]. split_and!; try lia.
    + apply (nth_set_eq _ _ _ _ Hset).
  - simpl. unfold JS.len. lia.
  - unfold gs_outer_inv, gs_outer_cond in Hinv, Hexit; simpl in *.
    apply Z.ltb_ge in Hexit.
    destruct Hinv as (Hi1 & [Hsl1 Hshift1] & Hbp1 & Hj1).
    assert (i1 = 0) as -> by lia. rewrite Hj1; simpl.
    destruct (proj2 Hbp1 0) as (j0 & Hj0 & Hjj & Hjb & Hjmin); [lia|].
    assert (j0 = j1) as -> by congruence.
    destruct (while_rule (gs_fill_cond p) (gs_fill_body p)
                (gs_fill_inv bp1)
                (λ st, Z.to_nat (JS.len p + 1 - gs_i st)))
      with (fuel := S (length p)) (s := mkGS shift1 bp1 0 j1)
      as ([shift2 bp2 i2 j2] & -> & Hinv2 & Hexit2).
    + intros st Hst Hc. by apply gs_fill_body_inv.
    + unfold gs_fill_inv; simpl. split_and!; try done; try lia.
      * intros j' H1 _ Hb. apply Hjmin; [lia|done].
      * intros k Hk. destruct (Hshift1 k Hk) as (v & Hv & Hvb & Hvs).
        exists v. split; [done|]. split; [lia|]. intros _. split; [lia|].
        intros d Hd. apply Hvs; [done|]. destruct Hd as (? & ? & _). lia.
    + simpl. unfold JS.len. lia.
    + unfold gs_fill_inv, gs_fill_cond in Hinv2, Hexit2; simpl in *.
      apply Z.leb_gt in Hexit2.
      destruct Hinv2 as (_ & Hi2 & Hsl2 & _ & _ & _ & Hshift2).
      assert (JS.slice0 shift2 (JS.len p + 1) = shift2) as ->.
      { unfold JS.slice0. apply take_ge. unfold JS.len in *. lia. }
      eexists; split; [done|]. split; [done|].
      intros k Hk. destruct (Hshift2 k Hk) as (v & Hv & Hv1 & _).
      exists v. split; [done|]. apply Hv1. lia.
Qed.

End Suffix.

(** ** The bad-character table *)

Lemma badchar_from_spec (pre rest : list A) (bad : gmap A Z) :
  (∀ c v, bad !! c = Some v → 0 ≤ v) →
  (∀ c x, JS.nullish (bad !! c) (-1) < x < JS.len pre →
          JS.nth (pre ++ rest) x ≠ Some c) →
  let bad' := badchar_from rest (JS.len pre) bad in
  (∀ c v, bad' !! c = Some v → 0 ≤ v) ∧
  (∀ c x, JS.nullish (bad' !! c) (-1) < x < JS.len (pre ++ rest) →
          JS.nth (pre ++ rest) x ≠ Some c).
Proof.
  revert pre bad. induction rest as [|c0 rest IH]; intros pre bad Hpos Hlast.
  - simpl. rewrite app_nil_r in *. done.
  - simpl. specialize (IH (pre ++ [c0]) (<[c0:=JS.len pre]> bad)).
    rewrite <- app_assoc in IH. simpl in IH.
    replace (JS.len (pre ++ [c0])) with (JS.len pre + 1) in IH
      by (unfold JS.len; rewrite length_app; simpl; lia).
    apply IH.
    + intros c v. destruct (decide (c = c0)) as [->|].
      * rewrite lookup_insert_eq. intros [= <-]. unfold JS.len. lia.
      * rewrite lookup_insert_ne by done. apply Hpos.
    + intros c x. destruct (decide (c = c0)) as [->|].
      * rewrite lookup_insert_eq. simpl. lia.
      * rewrite lookup_insert_ne by done. intros Hx.
        destruct (decide (x = JS.len pre)) as [->|]; [|apply Hlast; lia].
        unfold JS.len. rewrite nth_lookup, lookup_app_r, Nat.sub_diag by done.
        simpl. congruence.
Qed.

Lemma computeBadChar_spec (p : list A) c :
  let lastOcc := JS.nullish (computeBadChar p !! c) (-1) in
  -1 ≤ lastOcc ∧ ∀ x, lastOcc < x < JS.len p → JS.nth p x ≠ Some c.
Proof.
  destruct (badchar_from_spec [] p ∅) as [Hpos Hlast].
  - intros c' v. by rewrite lookup_empty.
  - intros c' x. rewrite lookup_empty. unfold JS.len; simpl. lia.
  - simpl in *. fold (computeBadChar p) in *. split; [|apply Hlast].
    destruct (computeBadChar p !! c) as [v|] eqn:E; simpl; [|done].
    specialize (Hpos c v E). lia.
Qed.

(** ** The Boyer-Moore search *)

(** The window starts of the Align steps of a trace. *)
Definition aligns (steps : list Step) : list Z := omap align_start steps.

Definition increasing (l : list Z) : Prop :=
  ∀ k1 k2 a1 a2,
    l !! k1 = Some a1 → l !! k2 = Some a2 → (k1 < k2)%nat → a1 < a2.

Lemma increasing_snoc l x :
  increasing l → (∀ a, a ∈ l → a < x) → increasing (l ++ [x]).
Proof.
  intros Hl Hx k1 k2 a1 a2 H1 H2 Hlt.
  apply lookup_app_Some in H2 as [H2|[Hk2 H2]].
  - rewrite lookup_app_l in H1 by (apply lookup_lt_Some in H2; lia).
    by apply (Hl k1 k2).
  - apply list_lookup_singleton_Some in H2 as [Hk <-].
    rewrite lookup_app_l in H1 by lia.
    apply Hx. by apply list_elem_of_lookup_2 in H1.
Qed.

Section BM.

Variables text pattern : list A.
Variable good : list Z.
Hypothesis Hm : 1 ≤ JS.len pattern.
Hypothesis Hgood : ∀ k, 0 ≤ k ≤ JS.len pattern →
  ∃ v, JS.nth good k = Some v ∧ 1 ≤ v ≤ JS.len pattern ∧
       good_ok pattern k v.

(** The right-to-left scan of the window at [s]: everything right of
    [j] matches, and the steps pushed are Compare steps. *)
Definition bm_scan_inv (s : Z) (steps0 : list Step) (sc : BMScan) : Prop :=
  -1 ≤ sc_j sc ≤ JS.len pattern - 1 ∧
  (∀ x, sc_j sc < x < JS.len pattern →
        JS.nth text (s + x) = JS.nth pattern x) ∧
  (Forall (step_wf text pattern) steps0 →
   Forall (step_wf text pattern) (sc_steps sc)) ∧
  aligns (sc_steps sc) = aligns steps0.

Lemma bm_scan_body_inv s steps0 sc :
  bm_scan_inv s steps0 sc → bm_scan_cond text pattern s sc = true →
  bm_scan_inv s steps0 (bm_scan_body pattern s sc) ∧
  (Z.to_nat (sc_j (bm_scan_body pattern s sc) + 1)
   < Z.to_nat (sc_j sc + 1))%nat.
Proof.
  destruct sc as [j steps].
  unfold bm_scan_inv, bm_scan_cond, bm_scan_body; simpl.
  intros (Hj & Hwin & Hwf & Hal) Hcond.
  apply andb_true_iff in Hcond as [Hj0 Heq].
  apply Z.leb_le in Hj0. apply js_eq_true in Heq.
  split; [|lia]. split_and!; try lia.
  - intros x Hx. destruct (decide (x = j)) as [->|]; [done|].
    apply Hwin. lia.
  - intros Hwf0. rewrite Forall_app, Forall_singleton.
    split; [by apply Hwf|]. split_and!; [|by simpl|done].
    intros c [= <-]; simpl. split_and!; try lia.
    + symmetry. by apply js_eq_true.
    + f_equal. lia.
    + f_equal. lia.
  - unfold aligns in *. rewrite omap_app, Hal; simpl.
    by rewrite app_nil_r.
Qed.

Definition bm_inv (st : BMState) : Prop :=
  0 ≤ bm_s st ∧
  bm_matches st = filter (occurs_at text pattern) (seqZ 0 (bm_s st)) ∧
  Forall (step_wf text pattern) (bm_steps st) ∧
  increasing (aligns (bm_steps st)) ∧
  (∀ a, a ∈ aligns (bm_steps st) → a < bm_s st) ∧
  JS.len (aligns (bm_steps st))
  ≤ Z.max 0 (Z.min (bm_s st) (JS.len text - JS.len pattern + 1)).

Definition bm_var (st : BMState) : nat :=
  Z.to_nat (JS.len text - JS.len pattern + 1 - bm_s st).

(** An occurrence at [s + d] behind a window at [s] whose characters
    right of [j] match makes [d] a compatible shift. *)
Lemma occurrence_compatible s j d :
  -1 ≤ j < JS.len pattern → 1 ≤ d →
  (∀ x, j < x < JS.len pattern →
        JS.nth text (s + x) = JS.nth pattern x) →
  (0 ≤ j → JS.nth text (s + j) ≠ JS.nth pattern j) →
  occurs_at text pattern (s + d) → compatible pattern (j + 1) d.
Proof.
  intros Hj Hd Hwin Hmis [Hs Hocc]%occurs_at_index. split.
  - intros x Hx Hdx. rewrite <- (Hwin x) by lia.
    rewrite <- (Hocc (x - d)) by lia. f_equal. lia.
  - intros Hdj. replace (j + 1 - 1) with j by lia.
    rewrite <- (Hocc (j - d)) by lia. replace (s + d + (j - d)) with (s + j) by lia.
    apply Hmis. lia.
Qed.

Lemma bm_body_inv st :
  bm_inv st → bm_cond text pattern st = true →
  ∃ st', bm_body text pattern (computeBadChar pattern) good st = Some st' ∧
         bm_inv st' ∧ (bm_var st' < bm_var st)%nat.
Proof.
  destruct st as [s steps matches].
  unfold bm_inv, bm_cond, bm_body, bm_var; simpl.
  intros (Hs & Hmatches & Hwf & Hinc & Hlt & Hcount) Hcond.
  apply Z.leb_le in Hcond.
  set (steps1 := steps ++
    [mkStep (Some s) (Some (s + JS.len pattern - 1)) None None None
       (ActAlign s) (SumWindow s (s + JS.len pattern - 1))]).
  assert (Forall (step_wf text pattern) steps1) as Hwf1.
  { apply Forall_app. split; [done|]. apply Forall_singleton.
    split_and!; [by intros c [=]|by simpl|done]. }
  assert (aligns steps1 = aligns steps ++ [s]) as Hal1.
  { unfold aligns, steps1. by rewrite omap_app. }
  destruct (while_rule (bm_scan_cond text pattern s)
              (λ sc, Some (bm_scan_body pattern s sc))
              (bm_scan_inv s steps1) (λ sc, Z.to_nat (sc_j sc + 1)))
    with (fuel := length pattern)
         (s := mkScan (JS.len pattern - 1) steps1)
    as ([j steps2] & -> & (Hj & Hwin & Hwf2 & Hal2) & Hexit).
  { intros sc Hsc Hc. eexists; split; [done|].
    by apply bm_scan_body_inv. }
  { unfold bm_scan_inv; simpl. split_and!; try done; lia. }
  { simpl. unfold JS.len. lia. }
  simpl in *. specialize (Hwf2 Hwf1). rewrite Hal1 in Hal2.
  unfold bm_scan_cond in Hexit; simpl in Hexit.
  assert (∀ a, a ∈ aligns steps ++ [s] → a ≤ s) as Hle.
  { intros a [Ha|Ha%list_elem_of_singleton]%elem_of_app; [|lia].
    specialize (Hlt a Ha). lia. }
  destruct (j <? 0) eqn:Ej.
  - apply Z.ltb_lt in Ej. assert (j = -1) as -> by lia.
    destruct (Hgood 0) as (v & Hv & Hvb & Hvok); [lia|].
    rewrite Hv; simpl. eexists; split; [done|]; simpl.
    unfold aligns in *. rewrite !omap_app, Hal2; simpl.
    rewrite !app_nil_r. split; [|lia]. split_and!; try lia.
    + rewrite Hmatches. symmetry. apply filter_seqZ_hit; [lia| |].
      * apply occurs_at_index. split; [done|]. intros x Hx.
        apply Hwin. lia.
      * intros s' Hs' Hocc.
        replace s' with (s + (s' - s)) in Hocc by lia.
        apply (occurrence_compatible s (-1)) in Hocc;
          [|lia|lia|done|lia].
        change (-1 + 1) with 0 in Hocc.
        specialize (Hvok (s' - s) ltac:(lia) Hocc). lia.
    + rewrite !Forall_app, !Forall_singleton. split_and!; try done.
      split_and!; [by intros c [=]|by simpl|].
      unfold step_shift_ok; simpl. lia.
    + apply increasing_snoc; [done|]. intros a Ha. by apply Hlt.
    + intros a Ha. specialize (Hle a Ha). lia.
    + unfold JS.len in *. rewrite length_app; simpl. lia.
  - apply Z.ltb_ge in Ej.
    assert (JS.nth text (s + j) ≠ JS.nth pattern j) as Hmis.
    { apply andb_false_iff in Hexit as [Hf|Hf].
      - apply Z.leb_gt in Hf. lia.
      - apply js_eq_false in Hf. congruence. }
    destruct (nth_is_Some text (s + j)) as [c Hc]; [lia|].
    rewrite Hc; simpl.
    destruct (computeBadChar_spec pattern c) as [Hlo Hlast]; simpl in *.
    set (lastOcc := JS.nullish (computeBadChar pattern !! c) (-1)) in *.
    destruct (Hgood (j + 1)) as (v & Hv & Hvb & Hvok); [lia|].
    rewrite Hv; simpl. eexists; split; [done|]; simpl.
    unfold aligns in *. rewrite !omap_app, Hal2; simpl.
    rewrite !app_nil_r. split; [|lia]. split_and!; try lia.
    + rewrite Hmatches. symmetry. apply filter_seqZ_skip; [lia|].
      intros s' _ Hs' Hocc.
      destruct (decide (s' = s)) as [->|].
      { apply occurs_at_index in Hocc as [_ Hocc].
        apply Hmis, Hocc. lia. }
      replace s' with (s + (s' - s)) in Hocc by lia.
      destruct (decide (s' - s < v)).
      * apply (occurrence_compatible s j) in Hocc;
          [|lia|lia|done|done].
        specialize (Hvok (s' - s) ltac:(lia) Hocc). lia.
      * assert (lastOcc < j - (s' - s)) as Hlo' by lia.
        apply occurs_at_index in Hocc as [_ Hocc].
        specialize (Hocc (j - (s' - s)) ltac:(lia)).
        replace (s + (s' - s) + (j - (s' - s))) with (s + j) in Hocc by lia.
        apply (Hlast (j - (s' - s))); [lia|]. congruence.
    + rewrite !Forall_app, !Forall_singleton. split_and!; try done.
      * split_and!; [|by simpl|by simpl].
        intros c' [= <-]; simpl. split_and!; try lia.
        -- symmetry. by apply js_eq_false.
        -- f_equal. lia.
        -- f_equal. lia.
      * split_and!; [by intros c' [=]|by simpl|].
        unfold step_shift_ok; simpl. lia.
    + apply increasing_snoc; [done|]. intros a Ha. by apply Hlt.
    + intros a Ha. specialize (Hle a Ha). lia.
    + unfold JS.len in *. rewrite length_app; simpl. lia.
Qed.

Lemma bm_loop_spec :
  ∃ st, while (bm_cond text pattern)
          (bm_body text pattern (computeBadChar pattern) good)
          (length text) (mkBM 0 [] []) = Some st ∧
        bm_inv st ∧ JS.len text - JS.len pattern < bm_s st.
Proof.
  destruct (while_rule (bm_cond text pattern)
              (bm_body text pattern (computeBadChar pattern) good)
              bm_inv bm_var bm_body_inv)
    with (fuel := length text) (s := mkBM 0 [] [])
    as (st & Hrun & Hinv & Hexit).
  - unfold bm_inv; simpl. split_and!; try done.
    + intros a Ha. by apply elem_of_nil in Ha.
    + unfold JS.len; simpl. lia.
  - unfold bm_var, JS.len in *; simpl. lia.
  - exists st. split_and!; try done.
    unfold bm_cond in Hexit. by apply Z.leb_gt in Hexit.
Qed.

End BM.

Lemma filter_seqZ_increasing (P : Z → Prop) `{!∀ s, Decision (P s)} w :
  increasing (filter P (seqZ 0 w)).
Proof.
  destruct (decide (w ≤ 0)).
  { rewrite seqZ_nil by done. by intros k1 k2 a1 a2 ?. }
  replace w with (Z.of_nat (Z.to_nat w)) by lia.
  induction (Z.to_nat w) as [|k IH].
  - by intros k1 k2 a1 a2 ?.
  - rewrite seqZ_S, filter_app. simpl. rewrite filter_cons, filter_nil.
    destruct (decide (P (0 + Z.of_nat k))); [|by rewrite app_nil_r].
    apply increasing_snoc; [done|].
    intros a [_ Ha%elem_of_seqZ]%list_elem_of_filter. lia.
Qed.

(** ** The generators as a whole *)

Lemma matches_bruteForce text pattern w :
  1 ≤ JS.len pattern → JS.len text - JS.len pattern < w →
  filter (occurs_at text pattern) (seqZ 0 w) = bruteForce text pattern.
Proof.
  intros Hm Hw. unfold bruteForce. apply filter_seqZ_skip; [lia|].
  intros s _ Hs Hocc. apply occurs_at_bound in Hocc; lia.
Qed.

Lemma elem_of_bruteForce text pattern s :
  1 ≤ JS.len pattern →
  s ∈ bruteForce text pattern ↔ occurs_at text pattern s.
Proof.
  intros Hm. unfold bruteForce. rewrite list_elem_of_filter, elem_of_seqZ.
  split; [tauto|]. intros Hocc. split; [done|].
  pose proof (occurs_at_bound _ _ _ Hm Hocc). destruct Hocc. lia.
Qed.

Lemma kmp_run_spec text pattern :
  1 ≤ JS.len pattern →
  ∃ st, kmp_run text pattern = Some st ∧
        buildKMPSteps text pattern
        = Some (ks_steps st ++ [completeStep], ks_matches st) ∧
        kmp_inv text pattern st ∧ kmp_trace_inv text pattern st ∧
        ks_i st = JS.len text.
Proof.
  intros Hm.
  destruct (computeLPS_correct pattern Hm) as (lps & log & Hlps & _ & Htab).
  destruct (kmp_loop_spec text pattern lps Hm Htab)
    as (st & Hrun & Hinv & Htr & Hi).
  exists st. unfold buildKMPSteps, kmp_run. rewrite Hlps.
  simpl in Hrun |- *. rewrite Hrun; simpl. done.
Qed.

Lemma kmp_matches_bruteForce text pattern st :
  1 ≤ JS.len pattern → kmp_inv text pattern st → ks_i st = JS.len text →
  ks_matches st = bruteForce text pattern.
Proof.
  intros Hm (Hj & Hi & _ & ->) Hn. apply matches_bruteForce; [done|lia].
Qed.

Lemma buildBMSteps_spec text pattern :
  1 ≤ JS.len pattern →
  ∃ st, buildBMSteps text pattern
        = Some (bm_steps st ++ [completeStep], bm_matches st) ∧
        bm_inv text pattern st ∧
        bm_matches st = bruteForce text pattern.
Proof.
  intros Hm.
  destruct (computeGoodSuffix_correct pattern Hm) as (good & Hgood & _ & Htab).
  assert (∀ k, 0 ≤ k ≤ JS.len pattern →
            ∃ v, JS.nth good k = Some v ∧ 1 ≤ v ≤ JS.len pattern ∧
                 good_ok pattern k v) as Htab'.
  { intros k Hk. destruct (Htab k Hk) as (v & ? & ? & ? & _). eauto. }
  destruct (bm_loop_spec text pattern good Hm Htab')
    as (st & Hrun & Hinv & Hs).
  exists st. unfold buildBMSteps. rewrite Hgood; simpl. rewrite Hrun; simpl.
  split_and!; [done|done|]. destruct Hinv as (_ & -> & _).
  by apply matches_bruteForce.
Qed.

Lemma completeStep_wf text pattern : step_cmp_ok text pattern completeStep.
Proof. by intros c [=]. Qed.

(** Both generators return for a pattern that is not empty, and their
    traces are well-formed steps closed by the Complete step. *)
Lemma traces_wf text pattern :
  1 ≤ JS.len pattern →
  ∃ ksteps kmatches bsteps bmatches,
    buildKMPSteps text pattern = Some (ksteps ++ [completeStep], kmatches) ∧
    buildBMSteps text pattern = Some (bsteps ++ [completeStep], bmatches) ∧
    Forall (step_wf text pattern) ksteps ∧
    Forall (step_wf text pattern) bsteps.
Proof.
  intros Hm.
  destruct (kmp_run_spec text pattern Hm) as (ks & _ & Hk & _ & [Hkwf _] & _).
  destruct (buildBMSteps_spec text pattern Hm) as (bs & Hb & Hbinv & _).
  destruct Hbinv as (_ & _ & Hbwf & _). eauto 10.
Qed.

Lemma trace_cmp_ok text pattern steps :
  Forall (step_wf text pattern) steps →
  Forall (step_cmp_ok text pattern) (steps ++ [completeStep]).
Proof.
  intros Hwf. apply Forall_app. split.
  - eapply Forall_impl; [done|]. by intros st [? _].
  - apply Forall_singleton, completeStep_wf.
Qed.

(** ** The step lookup *)

Lemma findIndex_from_spec {X} (f : X → bool) (l : list X) (k0 : Z) :
  (findIndex_from f l k0 = -1 ∧ ∀ x, x ∈ l → f x = false) ∨
  (∃ (k : nat) x, findIndex_from f l k0 = k0 + Z.of_nat k ∧
     l !! k = Some x ∧ f x = true ∧
     ∀ (k' : nat) x', (k' < k)%nat → l !! k' = Some x' → f x' = false).
Proof.
  revert k0. induction l as [|y l IH]; intros k0; simpl.
  - left. split; [done|]. intros x Hx. by apply elem_of_nil in Hx.
  - destruct (f y) eqn:Ey.
    + right. exists 0%nat, y. split_and!; [lia|done|done|]. intros; lia.
    + destruct (IH (k0 + 1)) as [[Hn Hall]|(k & x & Hk & Hx & Hfx & Hbefore)].
      * left. split; [done|]. intros x [->|Hx]%elem_of_cons; auto.
      * right. exists (S k), x. split_and!; [lia|done|done|].
        intros [|k'] x' Hlt Hx'; simpl in Hx'; [congruence|].
        apply (Hbefore k'); [lia|done].
Qed.

Lemma comparesAt_true t p step :
  comparesAt t p step = true ↔
  ∃ c, lastComparison step = Some c ∧ textIndex c = t ∧ patternIndex c = p.
Proof.
  unfold comparesAt. destruct (lastComparison step) as [c|]; split.
  - intros [?%Z.eqb_eq ?%Z.eqb_eq]%andb_true_iff. eauto.
  - intros (c' & [= <-] & <- & <-). by rewrite !Z.eqb_refl.
  - done.
  - by intros (c & ? & _).
Qed.

(** The lookup of the coordinate of a Compare step finds a step that is
    not later and records the same comparison. *)
Lemma findIndex_roundtrip text pattern (trace : list Step) (k : nat) step c :
  Forall (step_cmp_ok text pattern) trace →
  trace !! k = Some step → lastComparison step = Some c →
  ∃ (k' : nat) step',
    findIndex (comparesAt (textIndex c) (patternIndex c)) trace = Z.of_nat k' ∧
    (k' ≤ k)%nat ∧ trace !! k' = Some step' ∧ lastComparison step' = Some c.
Proof.
  intros Hwf Hk Hc. unfold findIndex.
  assert (comparesAt (textIndex c) (patternIndex c) step = true) as Hstep
    by (apply comparesAt_true; eauto).
  destruct (findIndex_from_spec
              (comparesAt (textIndex c) (patternIndex c)) trace 0)
    as [[_ Hall]|(k' & step' & Hk' & Hs' & Hf & Hbefore)].
  - rewrite Hall in Hstep; [done|]. by apply list_elem_of_lookup_2 in Hk.
  - exists k', step'. split_and!; [lia| |done|].
    + destruct (decide (k' ≤ k)%nat); [done|].
      rewrite (Hbefore k step) in Hstep; [done|lia|done].
    + apply comparesAt_true in Hf as (c' & Hc' & Ht & Hp).
      rewrite Hc'. f_equal.
      pose proof (Forall_lookup_1 _ _ _ _ Hwf Hk c Hc) as (_ & Hm1 & _).
      pose proof (Forall_lookup_1 _ _ _ _ Hwf Hs' c' Hc') as (_ & Hm2 & _).
      rewrite Ht, Hp, <- Hm1 in Hm2.
      destruct c, c'; simpl in *. congruence.
Qed.

(** A coordinate that no step compares is absent, and the click changes
    nothing. *)
Lemma findIndex_absent (trace : list Step) pos t p :
  (∀ step, step ∈ trace → cmp_coord step ≠ Some (t, p)) →
  findIndex (comparesAt t p) trace = -1 ∧
  jumpToComparison trace pos t p = pos.
Proof.
  intros Hno.
  assert (findIndex (comparesAt t p) trace = -1) as Hf.
  { unfold findIndex.
    destruct (findIndex_from_spec (comparesAt t p) trace 0)
      as [[Hn _]|(k' & step' & _ & Hs' & Hf & _)]; [done|].
    apply comparesAt_true in Hf as (c & Hc & <- & <-).
    destruct (Hno step'); [by apply list_elem_of_lookup_2 in Hs'|].
    unfold cmp_coord. by rewrite Hc. }
  split; [done|]. unfold jumpToComparison. rewrite Hf.
  by destruct (JS.len trace =? 0).
Qed.

(** A click on a cell whose coordinate the lookup finds moves to the index
    found, whatever the position was. *)
Lemma jumpToComparison_found (trace : list Step) pos t p (k' : nat) step' :
  findIndex (comparesAt t p) trace = Z.of_nat k' →
  trace !! k' = Some step' →
  jumpToComparison trace pos t p = Z.of_nat k'.
Proof.
  intros Hfind Hstep. unfold jumpToComparison. rewrite Hfind.
  apply lookup_lt_Some in Hstep.
  rewrite (proj2 (Z.eqb_neq (JS.len trace) 0)) by (unfold JS.len; lia).
  by rewrite (proj2 (Z.eqb_neq (Z.of_nat k') (-1))) by lia.
Qed.

(** ** Borders as lists *)

Lemma pre_border_list (p : list A) (K b : nat) :
  (K ≤ length p)%nat → (b ≤ K)%nat →
  pre_border p (Z.of_nat K) (Z.of_nat b) ↔
  take b (take K p) = drop (K - b) (take K p).
Proof.
  intros HK Hb. split.
  - intros [_ Hbord]. apply list_eq. intros i. rewrite lookup_drop.
    destruct (decide (i < b)%nat).
    + rewrite !lookup_take_lt by lia.
      specialize (Hbord (Z.of_nat i) ltac:(lia)).
      rewrite nth_lookup in Hbord. rewrite Hbord.
      rewrite <- nth_lookup. f_equal. lia.
    + rewrite lookup_take_ge by lia. symmetry.
      apply lookup_ge_None. rewrite length_take. lia.
  - intros Heq. split; [lia|]. intros x Hx.
    assert (take b (take K p) !! Z.to_nat x
            = drop (K - b) (take K p) !! Z.to_nat x) as E by (by rewrite Heq).
    rewrite lookup_drop, !lookup_take_lt in E by lia.
    unfold JS.nth. rewrite !bool_decide_eq_true_2 by lia.
    rewrite E. f_equal. lia.
Qed.

Lemma is_lps_longest (p : list A) (k : nat) (v : Z) :
  (k < length p)%nat → is_lps p (Z.of_nat k) v →
  0 ≤ v ≤ Z.of_nat k ∧
  longest_proper_border (take (S k) p) (Z.to_nat v).
Proof.
  intros Hk (Hb & Hlt & Hmax).
  assert (0 ≤ v) as Hv by (destruct Hb; lia). split; [lia|].
  assert (length (take (S k) p) = S k) as Hlen
    by (rewrite length_take; lia).
  replace (Z.of_nat k + 1) with (Z.of_nat (S k)) in * by lia.
  split.
  - split; [lia|]. rewrite Hlen. apply pre_border_list; [lia|lia|].
    by rewrite Z2Nat.id.
  - intros b' [Hb' Heq]. rewrite Hlen in Hb', Heq.
    apply pre_border_list in Heq; [|lia|lia].
    specialize (Hmax _ Heq). lia.
Qed.

(** * Further properties of the engine and of the application *)

(** ** Loops, once more *)

(** An invariant that the body keeps holds of whatever the loop returns. *)
Lemma while_inv {St : Type} (cond : St → bool) (body : St → option St)
    (Inv : St → Prop) :
  (∀ s s', Inv s → cond s = true → body s = Some s' → Inv s') →
  ∀ fuel s s', Inv s → while cond body fuel s = Some s' → Inv s'.
Proof.
  intros Hbody fuel. induction fuel as [|fuel IH]; intros s s' Hs;
    rewrite while_unfold; destruct (cond s) eqn:Ec;
    try (intros [= <-]; done); try done.
  destruct (body s) as [s1|] eqn:Eb; simpl; [|done].
  apply IH. by apply (Hbody s).
Qed.

(** ** What every step records *)

(** The fields [compareIndex] and [lastMatch], which the text row reads,
    repeat the comparison in [lastComparison], which the pattern row and
    the grid read. *)
Definition step_fields_ok (st : Step) : Prop :=
  compareIndex st = textIndex <$> lastComparison st ∧
  lastMatch st = cmatch <$> lastComparison st.

(** The compared text index is an index of the text. *)
Definition step_in_text (text : list A) (st : Step) : Prop :=
  ∀ c, lastComparison st = Some c → 0 ≤ textIndex c < JS.len text.

(** The start index that a MatchFound step announces. *)
Definition found_start (st : Step) : option Z :=
  match action st with
  | ActFound start => Some start
  | _ => None
  end.

(** The text index that a Compare step compares. *)
Definition cmp_text (st : Step) : option Z :=
  textIndex <$> lastComparison st.

Definition nondecreasing (l : list Z) : Prop :=
  ∀ k1 k2 a1 a2,
    l !! k1 = Some a1 → l !! k2 = Some a2 → (k1 ≤ k2)%nat → a1 ≤ a2.

Lemma nondecreasing_snoc l x :
  nondecreasing l → (∀ a, a ∈ l → a ≤ x) → nondecreasing (l ++ [x]).
Proof.
  intros Hl Hx k1 k2 a1 a2 H1 H2 Hle.
  apply lookup_app_Some in H2 as [H2|[Hk2 H2]].
  - rewrite lookup_app_l in H1 by (apply lookup_lt_Some in H2; lia).
    by apply (Hl k1 k2).
  - apply list_lookup_singleton_Some in H2 as [Hk <-].
    apply lookup_app_Some in H1 as [H1|[Hk1 H1]].
    + apply Hx. by apply list_elem_of_lookup_2 in H1.
    + apply list_lookup_singleton_Some in H1 as [_ <-]. lia.
Qed.

(** ** The KMP trace *)

Definition kmp_extra_inv (text : list A) (st : KMPState) : Prop :=
  0 ≤ ks_i st ∧
  Forall step_fields_ok (ks_steps st) ∧
  Forall (step_in_text text) (ks_steps st) ∧
  omap found_start (ks_steps st) = ks_matches st ∧
  nondecreasing (omap cmp_text (ks_steps st)) ∧
  (∀ t, t ∈ omap cmp_text (ks_steps st) → t ≤ ks_i st) ∧
  (∀ t, 0 ≤ t < ks_i st → t ∈ omap cmp_text (ks_steps st)).

Lemma kmp_body_extra text pattern lps st :
  kmp_extra_inv text st → kmp_cond text st = true →
  kmp_extra_inv text (kmp_body text pattern lps st).
Proof.
  destruct st as [i j steps matches cmps].
  unfold kmp_extra_inv, kmp_cond, kmp_body; simpl.
  intros (Hi & Hf & Ht & Hfound & Hnd & Hle & Hcov) Hcond.
  apply Z.ltb_lt in Hcond.
  assert (nondecreasing (omap cmp_text steps ++ [i])) as Hnd'
    by (by apply nondecreasing_snoc).
  assert (∀ i', i ≤ i' → ∀ t, t ∈ omap cmp_text steps ++ [i] → t ≤ i')
    as Hle'.
  { intros i' Hi' t [Hin|Hin%list_elem_of_singleton]%elem_of_app; [|lia].
    specialize (Hle t Hin). lia. }
  assert (∀ t, 0 ≤ t < i + 1 → t ∈ omap cmp_text steps ++ [i]) as Hcov'.
  { intros t Ht'. apply elem_of_app. destruct (decide (t = i)) as [->|].
    - right. by apply list_elem_of_singleton.
    - left. apply Hcov. lia. }
  assert (∀ t, 0 ≤ t < i → t ∈ omap cmp_text steps ++ [i]) as Hcov''
    by (intros t Ht'; apply Hcov'; lia).
  destruct (js_eq (JS.nth text i) (JS.nth pattern j)) eqn:Eq;
    [destruct (j + 1 =? JS.len pattern) eqn:Em|destruct (j =? 0) eqn:E0];
    simpl; rewrite ?Forall_app, ?Forall_singleton, ?omap_app; simpl;
    rewrite ?app_nil_r, ?Hfound;
    (split_and!; try done; try lia; auto with lia;
     try (by intros c [= <-]; simpl; lia)).
Qed.

Lemma kmp_run_extra text pattern st :
  kmp_run text pattern = Some st → kmp_extra_inv text st.
Proof.
  unfold kmp_run. destruct (computeLPS pattern) as [[lps log]|]; [|done].
  simpl. apply while_inv.
  - intros s s' Hs Hc [= <-]. by apply kmp_body_extra.
  - unfold kmp_extra_inv; simpl. split_and!; try done.
    + intros t Ht. by apply elem_of_nil in Ht.
    + intros; lia.
Qed.

(** ** The Boyer-Moore trace *)

(** A window that a step gives in full lies inside the text. *)
Definition step_window_in_text (text : list A) (st : Step) : Prop :=
  ∀ we, windowEnd st = Some we →
    ∃ ws, windowStart st = Some ws ∧ 0 ≤ ws ∧ we ≤ JS.len text - 1.

(** No shift that a ShiftDecision step names is longer than the pattern. *)
Definition step_shift_le (pattern : list A) (st : Step) : Prop :=
  match action st with
  | ActShiftAfterMatch shift => shift ≤ JS.len pattern
  | ActShift bc gs shift =>
      1 ≤ bc ≤ JS.len pattern ∧ 1 ≤ gs ≤ JS.len pattern ∧
      shift ≤ JS.len pattern
  | _ => True
  end.

Definition bm_step_extra (text pattern : list A) (st : Step) : Prop :=
  step_fields_ok st ∧ step_in_text text st ∧
  step_window_in_text text st ∧ step_shift_le pattern st.

Definition bm_scan_extra (text pattern : list A) (steps0 : list Step)
    (sc : BMScan) : Prop :=
  -1 ≤ sc_j sc ≤ JS.len pattern - 1 ∧
  (Forall (bm_step_extra text pattern) steps0 →
   Forall (bm_step_extra text pattern) (sc_steps sc)) ∧
  omap found_start (sc_steps sc) = omap found_start steps0 ∧
  aligns (sc_steps sc) = aligns steps0 ∧
  JS.len (omap cmp_coord (sc_steps sc))
  = JS.len (omap cmp_coord steps0) + (JS.len pattern - 1 - sc_j sc).

(** Closes the goals that one pushed step raises. *)
Ltac step_extra :=
  split_and!; try done;
  try (intros ? [= <-]; simpl; first [lia | eexists; split; [done|]; lia]);
  try (unfold step_shift_le; simpl; lia).

Lemma bm_scan_body_extra text pattern s steps0 sc :
  0 ≤ s ≤ JS.len text - JS.len pattern →
  bm_scan_extra text pattern steps0 sc →
  bm_scan_cond text pattern s sc = true →
  bm_scan_extra text pattern steps0 (bm_scan_body pattern s sc) ∧
  (Z.to_nat (sc_j (bm_scan_body pattern s sc) + 1)
   < Z.to_nat (sc_j sc + 1))%nat.
Proof.
  destruct sc as [j steps].
  unfold bm_scan_extra, bm_scan_cond, bm_scan_body; simpl.
  intros Hs (Hj & Hwf & Hfound & Hal & Hcount) Hcond.
  apply andb_true_iff in Hcond as [Hj0 _]. apply Z.leb_le in Hj0.
  split; [|lia]. split_and!; try lia.
  - intros Hwf0. rewrite Forall_app, Forall_singleton.
    split; [by apply Hwf|]. step_extra.
  - rewrite omap_app, Hfound; simpl. by rewrite app_nil_r.
  - unfold aligns in *. rewrite omap_app, Hal; simpl. by rewrite app_nil_r.
  - unfold JS.len in *. rewrite omap_app, length_app; simpl. lia.
Qed.

Definition bm_extra_inv (text pattern : list A) (st : BMState) : Prop :=
  Forall (bm_step_extra text pattern) (bm_steps st) ∧
  omap found_start (bm_steps st) = bm_matches st ∧
  JS.len (omap cmp_coord (bm_steps st))
  ≤ JS.len pattern * JS.len (aligns (bm_steps st)).

Section BMExtra.

Variables text pattern : list A.
Variable good : list Z.
Hypothesis Hm : 1 ≤ JS.len pattern.
Hypothesis Hgood : ∀ k, 0 ≤ k ≤ JS.len pattern →
  ∃ v, JS.nth good k = Some v ∧ 1 ≤ v ≤ JS.len pattern ∧
       good_ok pattern k v.

Lemma bm_body_extra st st' :
  bm_inv text pattern st → bm_extra_inv text pattern st →
  bm_cond text pattern st = true →
  bm_body text pattern (computeBadChar pattern) good st = Some st' →
  bm_extra_inv text pattern st'.
Proof.
  destruct st as [s steps matches].
  unfold bm_inv, bm_extra_inv, bm_cond, bm_body; simpl.
  intros (Hs & _) (Hwf & Hfound & Hcount) Hcond. apply Z.leb_le in Hcond.
  set (steps1 := steps ++
    [mkStep (Some s) (Some (s + JS.len pattern - 1)) None None None
       (ActAlign s) (SumWindow s (s + JS.len pattern - 1))]).
  assert (Forall (bm_step_extra text pattern) steps1) as Hwf1.
  { apply Forall_app. split; [done|]. apply Forall_singleton.
    step_extra. }
  destruct (while_rule (bm_scan_cond text pattern s)
              (λ sc, Some (bm_scan_body pattern s sc))
              (bm_scan_extra text pattern steps1)
              (λ sc, Z.to_nat (sc_j sc + 1)))
    with (fuel := length pattern)
         (s := mkScan (JS.len pattern - 1) steps1)
    as ([j steps2] & -> & (Hj & Hwf2 & Hfound2 & Hal2 & Hcount2) & Hexit).
  { intros sc Hsc Hc. eexists; split; [done|].
    by apply (bm_scan_body_extra text pattern s). }
  { unfold bm_scan_extra; simpl. split_and!; try done; lia. }
  { simpl. unfold JS.len. lia. }
  simpl in *. specialize (Hwf2 Hwf1).
  assert (omap found_start steps2 = omap found_start steps) as Hfound3.
  { rewrite Hfound2. unfold steps1. rewrite omap_app. simpl.
    by rewrite app_nil_r. }
  assert (aligns steps2 = aligns steps ++ [s]) as Hal3.
  { rewrite Hal2. unfold aligns, steps1. by rewrite omap_app. }
  assert (JS.len (omap cmp_coord steps2)
          = JS.len (omap cmp_coord steps) + (JS.len pattern - 1 - j))
    as Hcount3.
  { rewrite Hcount2. unfold steps1. rewrite omap_app. simpl.
    by rewrite app_nil_r. }
  assert (JS.len (aligns steps ++ [s]) = JS.len (aligns steps) + 1) as Hlen
    by (unfold JS.len; rewrite length_app; simpl; lia).
  destruct (j <? 0) eqn:Ej.
  - apply Z.ltb_lt in Ej.
    destruct (Hgood 0) as (v & Hv & Hvb & _); [lia|].
    rewrite Hv; simpl. intros [= <-]; simpl.
    unfold aligns in *. rewrite !omap_app, !Forall_app, !Forall_singleton.
    simpl. rewrite !app_nil_r, Hfound3, Hfound, Hal3.
    split_and!; try done; try step_extra.
    unfold JS.len in *. rewrite !length_app in *. simpl in *. nia.
  - apply Z.ltb_ge in Ej.
    destruct (nth_is_Some text (s + j)) as [c Hc]; [lia|].
    rewrite Hc; simpl.
    destruct (computeBadChar_spec pattern c) as [Hlo _]; simpl in Hlo.
    set (lastOcc := JS.nullish (computeBadChar pattern !! c) (-1)) in *.
    destruct (Hgood (j + 1)) as (v & Hv & Hvb & _); [lia|].
    rewrite Hv; simpl. intros [= <-]; simpl.
    unfold aligns in *. rewrite !omap_app, !Forall_app, !Forall_singleton.
    simpl. rewrite !app_nil_r, Hfound3, Hal3.
    split_and!; try done; try step_extra.
    unfold JS.len in *. rewrite !length_app in *. simpl in *. nia.
Qed.

Lemma bm_loop_extra st :
  while (bm_cond text pattern)
    (bm_body text pattern (computeBadChar pattern) good)
    (length text) (mkBM 0 [] []) = Some st →
  bm_extra_inv text pattern st.
Proof.
  intros Hrun.
  apply (while_inv _ _ (λ st, bm_inv text pattern st ∧
                              bm_extra_inv text pattern st)
           ) with (s' := st) in Hrun; [by destruct Hrun| |].
  - intros s s' [Hinv Hex] Hc Hb. split.
    + destruct (bm_body_inv text pattern good Hm Hgood s Hinv Hc)
        as (s'' & Hb' & Hinv' & _). congruence.
    + by apply (bm_body_extra s s').
  - split.
    + unfold bm_inv; simpl. split_and!; try done.
      * intros a Ha. by apply elem_of_nil in Ha.
      * unfold JS.len; simpl. lia.
    + unfold bm_extra_inv; simpl. split_and!; try done.
      unfold JS.len; simpl. lia.
Qed.

End BMExtra.

(** ** Both generators, with what their steps record *)

Lemma kmp_run_full text pattern :
  1 ≤ JS.len pattern →
  ∃ st, buildKMPSteps text pattern
        = Some (ks_steps st ++ [completeStep], ks_matches st) ∧
        kmp_inv text pattern st ∧ kmp_trace_inv text pattern st ∧
        ks_i st = JS.len text ∧ kmp_extra_inv text st.
Proof.
  intros Hm.
  destruct (kmp_run_spec text pattern Hm) as (st & Hrun & Hk & Hinv & Htr & Hi).
  exists st. split_and!; try done. by apply (kmp_run_extra text pattern).
Qed.

Lemma bm_run_full text pattern :
  1 ≤ JS.len pattern →
  ∃ st, buildBMSteps text pattern
        = Some (bm_steps st ++ [completeStep], bm_matches st) ∧
        bm_inv text pattern st ∧
        bm_matches st = bruteForce text pattern ∧
        bm_extra_inv text pattern st.
Proof.
  intros Hm.
  destruct (computeGoodSuffix_correct pattern Hm) as (good & Hgood & _ & Htab).
  assert (∀ k, 0 ≤ k ≤ JS.len pattern →
            ∃ v, JS.nth good k = Some v ∧ 1 ≤ v ≤ JS.len pattern ∧
                 good_ok pattern k v) as Htab'.
  { intros k Hk. destruct (Htab k Hk) as (v & ? & ? & ? & _). eauto. }
  destruct (bm_loop_spec text pattern good Hm Htab')
    as (st & Hrun & Hinv & Hs).
  exists st. unfold buildBMSteps. rewrite Hgood; simpl. rewrite Hrun; simpl.
  split_and!; [done|done| |by apply (bm_loop_extra text pattern good)].
  destruct Hinv as (_ & -> & _). by apply matches_bruteForce.
Qed.

Lemma complete_fields_ok : step_fields_ok completeStep.
Proof. done. Qed.

(** ** The bad-character table, exactly *)

Lemma nth_snoc {X} (l : list X) (y : X) (x : Z) :
  JS.nth (l ++ [y]) x
  = if bool_decide (x = JS.len l) then Some y else JS.nth l x.
Proof.
  unfold JS.nth, JS.len. case_bool_decide as Hx; case_bool_decide as Hl;
    try done; try lia.
  - subst. rewrite Nat2Z.id. rewrite lookup_app_r, Nat.sub_diag by done. done.
  - destruct (decide (Z.to_nat x < length l)%nat).
    + by rewrite lookup_app_l.
    + rewrite !lookup_ge_None_2; [done|lia|].
      rewrite length_app. simpl. lia.
Qed.

(** [bad] maps every character of [pre] to its last index in [pre]. *)
Definition rightmost_of (pre : list A) (bad : gmap A Z) : Prop :=
  ∀ c i, bad !! c = Some i ↔
         JS.nth pre i = Some c ∧ ∀ x, i < x → JS.nth pre x ≠ Some c.

Lemma badchar_from_rightmost (pre rest : list A) (bad : gmap A Z) :
  rightmost_of pre bad →
  rightmost_of (pre ++ rest) (badchar_from rest (JS.len pre) bad).
Proof.
  revert pre bad. induction rest as [|c0 rest IH]; intros pre bad Hr.
  - simpl. by rewrite app_nil_r.
  - simpl. specialize (IH (pre ++ [c0]) (<[c0:=JS.len pre]> bad)).
    rewrite <- app_assoc in IH. simpl in IH.
    replace (JS.len (pre ++ [c0])) with (JS.len pre + 1) in IH
      by (unfold JS.len; rewrite length_app; simpl; lia).
    apply IH. intros c i. destruct (decide (c = c0)) as [->|Hne].
    + rewrite lookup_insert_eq. split.
      * intros [= <-]. split.
        -- rewrite nth_snoc. by rewrite bool_decide_eq_true_2.
        -- intros x Hx. rewrite nth_snoc, bool_decide_eq_false_2 by lia.
           rewrite nth_None; [done|lia].
      * intros [Hi Hlast]. f_equal.
        rewrite nth_snoc in Hi. case_bool_decide; [done|].
        apply nth_Some_inv in Hi.
        specialize (Hlast (JS.len pre) ltac:(lia)).
        rewrite nth_snoc, bool_decide_eq_true_2 in Hlast; done.
    + rewrite lookup_insert_ne by done. rewrite (Hr c i). split.
      * intros [Hi Hlast]. pose proof (nth_Some_inv _ _ _ Hi). split.
        -- rewrite nth_snoc, bool_decide_eq_false_2 by lia. done.
        -- intros x Hx. rewrite nth_snoc. case_bool_decide; [congruence|].
           by apply Hlast.
      * intros [Hi Hlast]. rewrite nth_snoc in Hi.
        case_bool_decide; [congruence|]. split; [done|].
        intros x Hx Hc. apply (Hlast x Hx). rewrite nth_snoc.
        case_bool_decide; [|done]. apply nth_Some_inv in Hc. lia.
Qed.

Lemma computeBadChar_rightmost_of (p : list A) :
  rightmost_of p (computeBadChar p).
Proof.
  apply (badchar_from_rightmost [] p ∅). intros c i.
  rewrite lookup_empty. split; [done|]. intros [Hi _].
  apply nth_Some_inv in Hi. unfold JS.len in Hi. simpl in Hi. lia.
Qed.

(** ** The good-suffix table, exactly *)

Section SuffixExact.

Variable p : list A.
Hypothesis Hm : 1 ≤ JS.len p.

Lemma inner_shift_compatible k d : inner_shift p k d → compatible p k d.
Proof.
  intros (Hd & Hk & [Hle Hbord] & Hne). split.
  - intros x Hx Hdx. rewrite <- (Hbord x) by lia. f_equal. lia.
  - intros _. replace (k - 1 - d) with (k - d - 1) by lia. done.
Qed.

(** What the first pass has written is a shift of the inner kind. *)
Definition shift_sound (shift : list Z) : Prop :=
  ∀ k v, JS.nth shift k = Some v → v = JS.len p ∨ inner_shift p k v.

Lemma gs_inner_body_sound i borderPos st st' :
  1 ≤ i → gs_inner_inv p i borderPos st → shift_sound (gs_shift st) →
  gs_inner_cond p st = true → gs_inner_body p st = Some st' →
  shift_sound (gs_shift st').
Proof.
  destruct st as [shift bp i' j].
  unfold gs_inner_inv, gs_inner_cond, gs_inner_body; simpl.
  intros Hi (-> & -> & Hsl & Hj & Hbord & _) Hsound Hcond.
  apply andb_true_iff in Hcond as [Hjm Hne].
  apply Z.leb_le in Hjm. apply negb_true_iff, js_eq_false in Hne.
  specialize (Hbord Hjm).
  destruct (JS.nth shift j) as [sj|] eqn:Hsj; simpl; [|done].
  destruct (sj =? JS.len p) eqn:Es.
  - destruct (JS.set shift j (j - i)) as [shift'|] eqn:Hset; simpl; [|done].
    destruct (JS.nth borderPos j) as [j'|]; simpl; [|done].
    intros [= <-]; simpl. intros k v Hv.
    destruct (decide (k = j)) as [->|Hkj].
    + rewrite (nth_set_eq _ _ _ _ Hset) in Hv. injection Hv as <-.
      right. split_and!; try lia; replace (j - (j - i)) with i by lia; done.
    + rewrite (nth_set_ne _ _ _ _ _ Hset) in Hv by done. by apply Hsound.
  - simpl. destruct (JS.nth borderPos j) as [j'|]; simpl; [|done].
    intros [= <-]; simpl. done.
Qed.

Lemma gs_outer_body_sound st st' :
  gs_outer_inv p st → shift_sound (gs_shift st) →
  gs_outer_cond st = true → gs_outer_body p st = Some st' →
  shift_sound (gs_shift st').
Proof.
  destruct st as [shift bp i j].
  unfold gs_outer_inv, gs_outer_cond, gs_outer_body; simpl.
  intros (Hi & [Hsl Hshift] & [Hbl Hbp] & Hj) Hsound Hcond.
  apply Z.ltb_lt in Hcond.
  destruct (Hbp i) as (j0 & Hj0 & Hjj & Hjb & Hjmin); [lia|].
  assert (j0 = j) as -> by congruence.
  destruct (while_rule (gs_inner_cond p) (gs_inner_body p)
              (λ st, gs_inner_inv p i bp st ∧ shift_sound (gs_shift st))
              (gs_inner_var p))
    with (fuel := S (length p)) (s := mkGS shift bp i j)
    as ([shift1 bp1 i1 j1] & -> & [Hinv Hsound1] & _).
  - intros st [Hst Hso] Hc.
    destruct (gs_inner_body_inv p i bp st) as (st1 & Hb & Hinv1 & Hvar);
      [lia|done|done|done|].
    exists st1. split_and!; try done.
    apply (gs_inner_body_sound i bp st st1); [lia|done..].
  - split; [|done]. unfold gs_inner_inv; simpl.
    split_and!; try done; try lia.
    + intros j' Hj' Hb. specialize (Hjmin j' ltac:(lia) Hb). lia.
    + intros k Hk. destruct (Hshift k Hk) as (v & Hv & Hvb & Hvs).
      exists v. split_and!; [done|lia|done|].
      intros Hkj Hb. specialize (Hjmin k ltac:(lia) Hb). lia.
  - unfold gs_inner_var, JS.len; simpl. unfold JS.len in *. lia.
  - simpl in *.
    destruct (JS.set bp1 (i1 - 1) (j1 - 1)) as [bp'|]; simpl; [|done].
    by intros [= <-].
Qed.

(** What the table holds during the second pass: final shifts below [i],
    what the first pass left from [i] on. *)
Definition fill_sound (i : Z) (shift : list Z) : Prop :=
  ∀ k v, JS.nth shift k = Some v →
    (k < i → compatible p k v) ∧
    (i ≤ k → v = JS.len p ∨ inner_shift p k v).

Lemma gs_fill_body_sound borderPos st st' :
  gs_fill_inv p borderPos st → fill_sound (gs_i st) (gs_shift st) →
  gs_fill_cond p st = true → gs_fill_body p st = Some st' →
  fill_sound (gs_i st') (gs_shift st').
Proof.
  destruct st as [shift bp i j].
  unfold gs_fill_inv, gs_fill_cond, gs_fill_body; simpl.
  intros (-> & Hi & Hsl & Hj & Hbord & Hmin & _) Hsound Hcond.
  apply Z.leb_le in Hcond.
  assert (j ≤ JS.len p) as Hjm
    by (apply Hmin; [lia|lia|apply suf_border_end; lia]).
  destruct (Hbord Hjm) as [_ Hb].
  assert (compatible p i j) as Hcj.
  { split; [|lia]. intros x Hx Hjx. rewrite <- (Hb x) by lia. f_equal. lia. }
  destruct (JS.nth shift i) as [si|] eqn:Hsi; simpl; [|done].
  destruct (si =? JS.len p) eqn:Es.
  - destruct (JS.set shift i j) as [shift'|] eqn:Hset; simpl; [|done].
    destruct (if i =? j then JS.nth borderPos j else Some j) as [j'|];
      simpl; [|done].
    intros [= <-]; simpl. intros k v Hv.
    destruct (decide (k = i)) as [->|Hki].
    + rewrite (nth_set_eq _ _ _ _ Hset) in Hv. injection Hv as <-.
      split; [done|lia].
    + rewrite (nth_set_ne _ _ _ _ _ Hset) in Hv by done.
      destruct (Hsound k v Hv) as [H1 H2]. split; intros ?; [apply H1|apply H2]; lia.
  - simpl.
    destruct (if i =? j then JS.nth borderPos j else Some j) as [j'|];
      simpl; [|done].
    intros [= <-]; simpl. intros k v Hv.
    destruct (Hsound k v Hv) as [H1 H2].
    destruct (decide (k = i)) as [->|Hki].
    + split; [|lia]. intros _. apply Z.eqb_neq in Es.
      destruct (H2 ltac:(lia)) as [Heq|Hin]; [congruence|].
      by apply inner_shift_compatible.
    + split; intros ?; [apply H1|apply H2]; lia.
Qed.

(** Every entry of the table that [computeGoodSuffix] returns is the
    least compatible shift. *)
Lemma computeGoodSuffix_exact :
  ∃ good, computeGoodSuffix p = Some good ∧
    ∀ k, 0 ≤ k ≤ JS.len p →
      ∃ v, JS.nth good k = Some v ∧ 1 ≤ v ≤ JS.len p ∧
           compatible p k v ∧ good_ok p k v.
Proof.
  destruct (computeGoodSuffix_correct p Hm) as (good & Hgood & Hlen & Htab).
  exists good. split; [done|].
  cut (∀ k v, JS.nth good k = Some v → compatible p k v).
  { intros Hc k Hk. destruct (Htab k Hk) as (v & Hv & Hb & Hok & _).
    exists v. split; [done|]. split; [done|]. split; [by apply Hc|done]. }
  revert Hgood. unfold computeGoodSuffix.
  destruct (JS.set (JS.fill (JS.len p + 1) 0) (JS.len p) (JS.len p + 1))
    as [bp0|] eqn:Hset; simpl; [|done].
  pose proof (set_len _ _ _ _ Hset) as Hbl0. rewrite len_fill in Hbl0 by lia.
  destruct (while_rule gs_outer_cond (gs_outer_body p)
              (λ st, gs_outer_inv p st ∧ shift_sound (gs_shift st))
              (λ st, Z.to_nat (gs_i st)))
    with (fuel := length p)
         (s := mkGS (JS.fill (JS.len p + 1) (JS.len p)) bp0
                 (JS.len p) (JS.len p + 1))
    as ([shift1 bp1 i1 j1] & -> & [Hinv Hsound] & Hexit).
  - intros st [Hst Hso] Hc.
    destruct (gs_outer_body_inv p Hm st Hst Hc) as (st1 & Hb & Hinv1 & Hvar).
    exists st1. split_and!; try done.
    by apply (gs_outer_body_sound st st1).
  - split.
    + unfold gs_outer_inv; simpl. split_and!; try lia.
      * split; [apply len_fill; lia|]. intros k Hk. exists (JS.len p).
        rewrite nth_fill by lia. split_and!; [done|lia|].
        intros d (? & ? & _) ?. lia.
      * split; [done|]. intros k Hk. assert (k = JS.len p) as -> by lia.
        exists (JS.len p + 1). rewrite (nth_set_eq _ _ _ _ Hset).
        split; [done|]. split_and!; try lia.
      * apply (nth_set_eq _ _ _ _ Hset).
    + intros k v Hv. simpl in Hv. left.
      pose proof (nth_Some_inv _ _ _ Hv) as Hk.
      rewrite len_fill in Hk by lia. rewrite nth_fill in Hv by lia.
      congruence.
  - simpl. unfold JS.len. lia.
  - unfold gs_outer_inv, gs_outer_cond in Hinv, Hexit; simpl in *.
    apply Z.ltb_ge in Hexit.
    destruct Hinv as (Hi1 & [Hsl1 Hshift1] & Hbp1 & Hj1).
    assert (i1 = 0) as -> by lia. rewrite Hj1; simpl.
    destruct (proj2 Hbp1 0) as (j0 & Hj0 & Hjj & Hjb & Hjmin); [lia|].
    assert (j0 = j1) as -> by congruence.
    destruct (while_rule (gs_fill_cond p) (gs_fill_body p)
                (λ st, gs_fill_inv p bp1 st ∧
                       fill_sound (gs_i st) (gs_shift st))
                (λ st, Z.to_nat (JS.len p + 1 - gs_i st)))
      with (fuel := S (length p)) (s := mkGS shift1 bp1 0 j1)
      as ([shift2 bp2 i2 j2] & -> & [Hinv2 Hsound2] & Hexit2).
    + intros st [Hst Hso] Hc.
      destruct (gs_fill_body_inv p Hm bp1 st Hbp1 Hst Hc)
        as (st1 & Hb & Hinv1 & Hvar).
      exists st1. split_and!; try done.
      by apply (gs_fill_body_sound bp1 st st1).
    + split.
      * unfold gs_fill_inv; simpl. split_and!; try done; try lia.
        -- intros j' H1 _ Hb. apply Hjmin; [lia|done].
        -- intros k Hk. destruct (Hshift1 k Hk) as (v & Hv & Hvb & Hvs).
           exists v. split; [done|]. split; [lia|]. intros _. split; [lia|].
           intros d Hd. apply Hvs; [done|]. destruct Hd as (? & ? & _). lia.
      * intros k v Hv. simpl in *. pose proof (nth_Some_inv _ _ _ Hv).
        split; [lia|]. intros _. by apply Hsound.
    + simpl. unfold JS.len. lia.
    + unfold gs_fill_inv, gs_fill_cond in Hinv2, Hexit2; simpl in *.
      apply Z.leb_gt in Hexit2.
      destruct Hinv2 as (_ & Hi2 & Hsl2 & _).
      assert (JS.slice0 shift2 (JS.len p + 1) = shift2) as ->.
      { unfold JS.slice0. apply take_ge. unfold JS.len in *. lia. }
      intros [= <-] k v Hv. pose proof (nth_Some_inv _ _ _ Hv).
      apply (Hsound2 k v Hv). lia.
Qed.

End SuffixExact.

(** ** The preprocessing log of the LPS table *)

Definition is_LogCompare (e : LogEntry) : bool :=
  match e with
  | LogCompare _ _ _ _ => true
  | _ => false
  end.

(** The number of comparisons that a log reports. *)
Definition log_compares (log : list LogEntry) : Z :=
  JS.len (filter (λ e, is_LogCompare e = true) log).

Lemma log_compares_push log i pi len plen e :
  is_LogCompare e = false →
  log_compares ((log ++ [LogCompare i pi len plen]) ++ [e])
  = log_compares log + 1.
Proof.
  intros He. unfold log_compares, JS.len.
  rewrite !filter_app, !length_app, !filter_cons, !filter_nil. simpl.
  rewrite He. simpl. lia.
Qed.

Section PrefixLog.

Variable p : list A.

Definition lps_log_inv (st : LPSState) : Prop :=
  2 * log_compares (lp_log st) = JS.len (lp_log st) ∧
  JS.len (lp_log st) + 2 * Z.of_nat (lps_var p st) ≤ 4 * (JS.len p - 1) ∧
  (∀ k v, LogMatch k v ∈ lp_log st →
          0 ≤ k < lp_i st ∧ JS.nth (lp_lps st) k = Some v) ∧
  (∀ k, LogSet k ∈ lp_log st →
        0 ≤ k < lp_i st ∧ JS.nth (lp_lps st) k = Some 0) ∧
  (∀ k, 1 ≤ k < lp_i st →
        (∃ v, LogMatch k v ∈ lp_log st) ∨ LogSet k ∈ lp_log st).

Lemma lps_body_log st st' :
  lps_inv p st → lps_log_inv st → lps_cond p st = true →
  lps_body p st = Some st' →
  lps_log_inv st'.
Proof.
  intros Hinv Hlog Hcond Hbody.
  destruct (lps_body_inv p st Hinv Hcond) as (st1 & Hb1 & _ & Hvar).
  assert (st1 = st') as -> by congruence. clear Hb1.
  destruct st as [lps log len i]. destruct Hinv as (_ & Hi & _).
  revert Hbody Hvar. unfold lps_log_inv, lps_body in *; simpl in *.
  destruct Hlog as (Hc & Hlen & Hmatch & Hset & Hcov).
  assert (∀ e, JS.len ((log ++ [LogCompare i (JS.nth p i) len (JS.nth p len)])
                       ++ [e]) = JS.len log + 2) as Hlen2.
  { intros e. unfold JS.len. rewrite !length_app. simpl. lia. }
  destruct (js_eq (JS.nth p i) (JS.nth p len)); [|destruct (len =? 0)]; simpl.
  - destruct (JS.set lps i (len + 1)) as [lps'|] eqn:Hs; simpl; [|done].
    intros [= <-] Hvar; simpl in *.
    rewrite log_compares_push, Hlen2 by done. split_and!; try lia.
    + intros k v [[Hin|Hin%list_elem_of_singleton]%elem_of_app
                 |Hin%list_elem_of_singleton]%elem_of_app; try done.
      * destruct (Hmatch k v Hin) as [Hk Hv].
        rewrite (nth_set_ne _ _ _ _ _ Hs) by lia. split; [lia|done].
      * injection Hin as -> ->. rewrite (nth_set_eq _ _ _ _ Hs).
        split; [lia|done].
    + intros k [[Hin|Hin%list_elem_of_singleton]%elem_of_app
               |Hin%list_elem_of_singleton]%elem_of_app; try done.
      destruct (Hset k Hin) as [Hk Hv].
      rewrite (nth_set_ne _ _ _ _ _ Hs) by lia. split; [lia|done].
    + intros k Hk. destruct (decide (k = i)) as [->|].
      * left. exists (len + 1). apply elem_of_app. right.
        by apply list_elem_of_singleton.
      * destruct (Hcov k ltac:(lia)) as [[v Hin]|Hin]; [left; exists v|right];
          apply elem_of_app; left; apply elem_of_app; by left.
  - destruct (JS.set lps i 0) as [lps'|] eqn:Hs; simpl; [|done].
    intros [= <-] Hvar; simpl in *.
    rewrite log_compares_push, Hlen2 by done. split_and!; try lia.
    + intros k v [[Hin|Hin%list_elem_of_singleton]%elem_of_app
                 |Hin%list_elem_of_singleton]%elem_of_app; try done.
      destruct (Hmatch k v Hin) as [Hk Hv].
      rewrite (nth_set_ne _ _ _ _ _ Hs) by lia. split; [lia|done].
    + intros k [[Hin|Hin%list_elem_of_singleton]%elem_of_app
               |Hin%list_elem_of_singleton]%elem_of_app; try done.
      * destruct (Hset k Hin) as [Hk Hv].
        rewrite (nth_set_ne _ _ _ _ _ Hs) by lia. split; [lia|done].
      * injection Hin as ->. rewrite (nth_set_eq _ _ _ _ Hs).
        split; [lia|done].
    + intros k Hk. destruct (decide (k = i)) as [->|].
      * right. apply elem_of_app. right. by apply list_elem_of_singleton.
      * destruct (Hcov k ltac:(lia)) as [[v Hin]|Hin]; [left; exists v|right];
          apply elem_of_app; left; apply elem_of_app; by left.
  - destruct (JS.nth lps (len - 1)) as [len'|] eqn:Hl; simpl; [|done].
    intros [= <-] Hvar; simpl in *.
    rewrite log_compares_push, Hlen2 by done. split_and!; try lia.
    + intros k v [[Hin|Hin%list_elem_of_singleton]%elem_of_app
                 |Hin%list_elem_of_singleton]%elem_of_app; try done.
      by apply Hmatch.
    + intros k [[Hin|Hin%list_elem_of_singleton]%elem_of_app
               |Hin%list_elem_of_singleton]%elem_of_app; try done.
      by apply Hset.
    + intros k Hk.
      destruct (Hcov k ltac:(lia)) as [[v Hin]|Hin]; [left; exists v|right];
        apply elem_of_app; left; apply elem_of_app; by left.
Qed.

Lemma computeLPS_log :
  1 ≤ JS.len p →
  ∃ lps log, computeLPS p = Some (lps, log) ∧
    JS.len log = 2 * log_compares log ∧
    log_compares log ≤ 2 * (JS.len p - 1) ∧
    (∀ k v, LogMatch k v ∈ log → JS.nth lps k = Some v) ∧
    (∀ k, LogSet k ∈ log → JS.nth lps k = Some 0) ∧
    (∀ k, 1 ≤ k < JS.len p → (∃ v, LogMatch k v ∈ log) ∨ LogSet k ∈ log).
Proof.
  intros Hm. unfold computeLPS.
  destruct (while_rule (lps_cond p) (lps_body p)
              (λ st, lps_inv p st ∧ lps_log_inv st) (lps_var p))
    with (fuel := (2 * length p)%nat)
         (s := mkLPS (JS.fill (JS.len p) 0) [] 0 1)
    as (st & -> & [Hinv Hlog] & Hexit).
  - intros st [Hst Hlo] Hc.
    destruct (lps_body_inv p st Hst Hc) as (st1 & Hb & Hinv1 & Hvar).
    exists st1. split_and!; try done. by apply (lps_body_log st st1).
  - split.
    + unfold lps_inv; simpl. split_and!; try lia.
      * apply len_fill. lia.
      * apply pre_border_0. lia.
      * intros k Hk. assert (k = 0) as -> by lia. exists 0.
        rewrite nth_fill by lia. split; [done|].
        split_and!; [apply pre_border_0; lia|lia|].
        intros b [Hb _] ?. lia.
    + unfold lps_log_inv, lps_var; simpl. split_and!; try done.
      * unfold JS.len in *. simpl. lia.
      * intros k v Hin. by apply elem_of_nil in Hin.
      * intros k Hin. by apply elem_of_nil in Hin.
      * intros; lia.
  - unfold lps_var, JS.len in *; simpl. lia.
  - simpl. destruct Hinv as (_ & Hi & _).
    destruct Hlog as (Hc & Hlen & Hmatch & Hset & Hcov).
    unfold lps_cond in Hexit. apply Z.ltb_ge in Hexit.
    exists (lp_lps st), (lp_log st). split_and!; try done; try lia.
    + intros k v Hin. by apply Hmatch.
    + intros k Hin. by apply Hset.
    + intros k Hk. apply Hcov. lia.
Qed.

End PrefixLog.

(** ** The application *)

Lemma nth_arrayFrom {X} (n : Z) (f : Z → X) (i : Z) :
  0 ≤ i < n → JS.nth (arrayFrom n f) i = Some (f i).
Proof.
  intros Hi. unfold JS.nth, arrayFrom. rewrite bool_decide_eq_true_2 by lia.
  rewrite list_lookup_fmap, lookup_seqZ_lt by lia. simpl. f_equal. f_equal. lia.
Qed.

Lemma len_arrayFrom {X} (n : Z) (f : Z → X) :
  0 ≤ n → JS.len (arrayFrom n f) = n.
Proof.
  intros Hn. unfold JS.len, arrayFrom. rewrite length_fmap, length_seqZ. lia.
Qed.

(** The cell [(i, j)] of the grid tells whether [text[i]] and
    [pattern[j]] are equal. *)
Lemma compareGridOf_cell text pattern i j :
  0 ≤ i < JS.len text → 0 ≤ j < JS.len pattern →
  (row ← JS.nth (compareGridOf text pattern) i; JS.nth row j)
  = Some (js_eq (JS.nth text i) (JS.nth pattern j)).
Proof.
  intros Hi Hj. unfold compareGridOf. rewrite nth_arrayFrom by done. simpl.
  by rewrite nth_arrayFrom.
Qed.

(** What the rendering relies on in a step. *)
Definition step_render_ok (text pattern : list A) (st : Step) : Prop :=
  step_cmp_ok text pattern st ∧ step_fields_ok st ∧ step_in_text text st.

(** The trace and the matches that [onRun] stores, for either choice of
    the algorithm. *)
Lemma selected_trace text pattern (algorithm : string) :
  1 ≤ JS.len pattern →
  ∃ steps,
    (if String.eqb algorithm "KMP" then buildKMPSteps text pattern
     else buildBMSteps text pattern)
    = Some (steps ++ [completeStep], bruteForce text pattern) ∧
    Forall (step_render_ok text pattern) (steps ++ [completeStep]).
Proof.
  intros Hm.
  assert (step_render_ok text pattern completeStep) as Hcomplete
    by (split_and!; [by intros c [=]|done|by intros c [=]]).
  destruct (String.eqb algorithm "KMP").
  - destruct (kmp_run_full text pattern Hm)
      as (st & Hk & Hinv & [Hwf _] & Hi & (_ & Hf & Ht & _)).
    exists (ks_steps st).
    rewrite Hk, (kmp_matches_bruteForce text pattern st Hm Hinv Hi).
    split; [done|]. apply Forall_app. split; [|by apply Forall_singleton].
    apply Forall_forall. intros step Hin.
    pose proof (proj1 (Forall_forall _ _) Hwf step Hin) as [? _].
    pose proof (proj1 (Forall_forall _ _) Hf step Hin).
    pose proof (proj1 (Forall_forall _ _) Ht step Hin). done.
  - destruct (bm_run_full text pattern Hm)
      as (st & Hb & (_ & _ & Hwf & _) & Hbm & (Hex & _)).
    exists (bm_steps st). rewrite Hb, Hbm.
    split; [done|]. apply Forall_app. split; [|by apply Forall_singleton].
    apply Forall_forall. intros step Hin.
    pose proof (proj1 (Forall_forall _ _) Hwf step Hin) as [? _].
    pose proof (proj1 (Forall_forall _ _) Hex step Hin) as (? & ? & _). done.
Qed.

Lemma totalComparisons_app (l1 l2 : list Step) :
  totalComparisons (l1 ++ l2) = totalComparisons l1 + totalComparisons l2.
Proof.
  unfold totalComparisons, JS.len. rewrite filter_app, length_app. lia.
Qed.

Lemma totalComparisons_nonneg (l : list Step) : 0 ≤ totalComparisons l.
Proof. unfold totalComparisons, JS.len. lia. Qed.

Lemma totalComparisons_take (l : list Step) (k1 k2 : nat) :
  (k1 ≤ k2)%nat →
  totalComparisons (take k1 l) ≤ totalComparisons (take k2 l).
Proof.
  intros Hk. rewrite <- (take_drop k1 (take k2 l)), take_take.
  rewrite Nat.min_l by done. rewrite totalComparisons_app.
  pose proof (totalComparisons_nonneg (drop k1 (take k2 l))). lia.
Qed.

Lemma sliceTo_take {X} (l : list X) (k : Z) :
  0 ≤ k → sliceTo l k = take (Z.to_nat k) l.
Proof.
  intros Hk. unfold sliceTo. by rewrite (proj2 (Z.ltb_ge _ _)) by lia.
Qed.

(** [jumpToComparison] moves to a step of the trace that compares the
    clicked cell, or does not move. *)
Lemma jumpToComparison_cases (steps : list Step) pos t p :
  jumpToComparison steps pos t p = pos ∨
  ∃ step c, JS.nth steps (jumpToComparison steps pos t p) = Some step ∧
            lastComparison step = Some c ∧
            textIndex c = t ∧ patternIndex c = p.
Proof.
  unfold jumpToComparison. destruct (JS.len steps =? 0); [by left|].
  unfold findIndex.
  destruct (findIndex_from_spec (comparesAt t p) steps 0)
    as [[-> _]|(k & step & -> & Hk & Hf & _)]; [by left|].
  right. rewrite (proj2 (Z.eqb_neq _ _)) by lia. simpl.
  apply comparesAt_true in Hf as (c & Hc & Ht & Hp).
  exists step, c. rewrite Z.add_0_l, nth_lookup. done.
Qed.

End Engine.

(** * Examples *)

Example computeLPS_ABABCABAB :
  fst <$> computeLPS (str "ABABCABAB") = Some [0; 0; 1; 2; 0; 1; 2; 3; 4].
Proof. vm_compute. reflexivity. Qed.

Example computeGoodSuffix_ABABCABAB :
  computeGoodSuffix (str "ABABCABAB") = Some [5; 5; 5; 5; 5; 5; 7; 2; 9; 1].
Proof. vm_compute. reflexivity. Qed.

(** The shift [m], the value that fills the table at the start, is the
    shift after a full match of a pattern without a border. *)
Example computeGoodSuffix_AB : computeGoodSuffix (str "AB") = Some [2; 2; 1].
Proof. vm_compute. reflexivity. Qed.

Example bruteForce_ABA :
  bruteForce (str "ABABA") (str "ABA") = [0; 2].
Proof. vm_compute. reflexivity. Qed.

(** * The claims of the specification *)

(** C1. For a pattern that is not empty and not longer than the text,
    [buildKMPSteps] and [buildBMSteps] return the same match list, which is
    the list of the brute-force scan: every index at which the pattern
    occurs, in ascending order.  For the text "ABABDABACDABABCABAB" and the
    pattern "ABABCABAB" both return [10]. *)
Theorem matches_agree_with_bruteForce {A : Type} `{Countable A}
    (text pattern : list A) :
  1 ≤ JS.len pattern ≤ JS.len text →
  (∃ kmpTrace bmTrace matches,
     buildKMPSteps text pattern = Some (kmpTrace, matches) ∧
     buildBMSteps text pattern = Some (bmTrace, matches) ∧
     matches = bruteForce text pattern ∧
     increasing matches ∧
     ∀ s, s ∈ matches ↔ occurs_at text pattern s) ∧
  snd <$> buildKMPSteps (str "ABABDABACDABABCABAB") (str "ABABCABAB")
  = Some [10] ∧
  snd <$> buildBMSteps (str "ABABDABACDABABCABAB") (str "ABABCABAB")
  = Some [10].
Proof.
  intros [Hm Hn]. split; [|split; vm_compute; reflexivity].
  destruct (kmp_run_spec text pattern Hm) as (ks & _ & Hk & Hkinv & _ & Hki).
  destruct (buildBMSteps_spec text pattern Hm) as (bs & Hb & _ & Hbm).
  pose proof (kmp_matches_bruteForce text pattern ks Hm Hkinv Hki) as Hkm.
  exists (ks_steps ks ++ [completeStep]), (bm_steps bs ++ [completeStep]),
         (bruteForce text pattern).
  rewrite Hk, Hb, Hkm, Hbm. split_and!; try done.
  - apply filter_seqZ_increasing.
  - intros s. by apply elem_of_bruteForce.
Qed.

Lemma matches_agree_with_bruteForce_witness :
  1 ≤ JS.len (str "AB") ≤ JS.len (str "ABCAB") ∧
  ∃ kmpTrace bmTrace matches,
    buildKMPSteps (str "ABCAB") (str "AB") = Some (kmpTrace, matches) ∧
    buildBMSteps (str "ABCAB") (str "AB") = Some (bmTrace, matches) ∧
    matches = bruteForce (str "ABCAB") (str "AB").
Proof.
  assert (1 ≤ JS.len (str "AB") ≤ JS.len (str "ABCAB")) as Hlen
    by (unfold JS.len; simpl; lia).
  split; [exact Hlen|].
  destruct (matches_agree_with_bruteForce (str "ABCAB") (str "AB") Hlen)
    as [(kt & bt & ms & Hk & Hb & Hms & _) _].
  exists kt, bt, ms. auto.
Defined.

(** C2, as stated, fails: for the text "A" and the longer pattern "AB" the
    trace of [buildKMPSteps] has two steps, a Compare step before the
    Complete step. *)
Lemma kmp_trace_longer_pattern_counterexample :
  JS.len (str "A") < JS.len (str "AB") ∧ 1 ≤ JS.len (str "AB") ∧
  ∃ trace matches,
    buildKMPSteps (str "A") (str "AB") = Some (trace, matches) ∧
    length trace ≠ 1%nat.
Proof.
  split_and!; [unfold JS.len; simpl; lia..|].
  eexists _, _. split; [vm_compute; reflexivity|]. simpl. lia.
Qed.

(** C2, amended.  For a pattern that is not empty and longer than the text,
    [buildBMSteps] returns the trace that holds the Complete step only and
    an empty match list; [buildKMPSteps] returns an empty match list and a
    trace that the Complete step closes, with at least one step for every
    character of the text before it, so its length is 1 for the empty text
    only. *)
Theorem longer_pattern_no_match {A : Type} `{Countable A}
    (text pattern : list A) :
  1 ≤ JS.len pattern → JS.len text < JS.len pattern →
  buildBMSteps text pattern = Some ([completeStep], []) ∧
  ∃ steps,
    buildKMPSteps text pattern = Some (steps ++ [completeStep], []) ∧
    JS.len text ≤ JS.len steps ≤ 4 * JS.len text.
Proof.
  intros Hm Hlt.
  assert (bruteForce text pattern = []) as Hbf.
  { unfold bruteForce. by rewrite seqZ_nil by lia. }
  split.
  - destruct (computeGoodSuffix_correct pattern Hm) as (good & Hgood & _).
    unfold buildBMSteps. rewrite Hgood; simpl. rewrite while_unfold.
    unfold bm_cond; simpl. by rewrite (proj2 (Z.leb_gt _ _)) by lia.
  - destruct (kmp_run_spec text pattern Hm)
      as (ks & _ & Hk & Hkinv & Htr & Hki).
    pose proof (kmp_matches_bruteForce text pattern ks Hm Hkinv Hki) as Hkm.
    exists (ks_steps ks). rewrite Hk, Hkm, Hbf. split; [done|].
    destruct Htr as (_ & _ & Hcount & Hsteps). destruct Hkinv as (Hj & _).
    lia.
Qed.

Lemma longer_pattern_no_match_witness :
  1 ≤ JS.len (str "AB") ∧ JS.len (str "A") < JS.len (str "AB") ∧
  buildBMSteps (str "A") (str "AB") = Some ([completeStep], []).
Proof.
  assert (1 ≤ JS.len (str "AB")) as Hm by (unfold JS.len; simpl; lia).
  assert (JS.len (str "A") < JS.len (str "AB")) as Hlt
    by (unfold JS.len; simpl; lia).
  split; [exact Hm|]. split; [exact Hlt|].
  exact (proj1 (longer_pattern_no_match (str "A") (str "AB") Hm Hlt)).
Defined.

(** C3, as stated, fails: for the text "ABABAB" (n = 6) and the pattern
    "AA" (m = 2) the trace of [buildKMPSteps] holds 9 Compare steps, more
    than n + m = 8. *)
Lemma kmp_comparisons_exceed_n_plus_m :
  1 ≤ JS.len (str "AA") ∧
  ∃ trace matches,
    buildKMPSteps (str "ABABAB") (str "AA") = Some (trace, matches) ∧
    totalComparisons trace = 9 ∧
    ¬ (totalComparisons trace ≤ JS.len (str "ABABAB") + JS.len (str "AA")).
Proof.
  split; [unfold JS.len; simpl; lia|].
  eexists _, _. split; [vm_compute; reflexivity|].
  split; [vm_compute; reflexivity|]. vm_compute. intros Hle. by apply Hle.
Qed.

(** C3, amended.  For a pattern that is not empty, the trace of
    [buildKMPSteps] holds exactly one Compare step for every comparison
    [text[i] === pattern[j]] that the search makes, in the order in which
    it makes them, and the number of Compare steps is at most 2 n. *)
Theorem kmp_comparisons_bound {A : Type} `{Countable A}
    (text pattern : list A) :
  1 ≤ JS.len pattern →
  ∃ st trace matches,
    kmp_run text pattern = Some st ∧
    buildKMPSteps text pattern = Some (trace, matches) ∧
    omap cmp_coord trace = ks_cmps st ∧
    totalComparisons trace = JS.len (ks_cmps st) ∧
    totalComparisons trace ≤ 2 * JS.len text.
Proof.
  intros Hm.
  destruct (kmp_run_spec text pattern Hm) as (ks & Hrun & Hk & Hkinv & Htr & Hki).
  exists ks, (ks_steps ks ++ [completeStep]), (ks_matches ks).
  destruct Htr as (_ & Hcmps & Hcount & _). destruct Hkinv as (Hj & _).
  assert (omap cmp_coord (ks_steps ks ++ [completeStep]) = ks_cmps ks) as Hall.
  { rewrite omap_app, Hcmps. simpl. by rewrite app_nil_r. }
  rewrite totalComparisons_omap, Hall. split_and!; try done. lia.
Qed.

Lemma kmp_comparisons_bound_witness :
  1 ≤ JS.len (str "AA") ∧
  ∃ trace matches,
    buildKMPSteps (str "ABABAB") (str "AA") = Some (trace, matches) ∧
    totalComparisons trace ≤ 2 * JS.len (str "ABABAB").
Proof.
  assert (1 ≤ JS.len (str "AA")) as Hm by (unfold JS.len; simpl; lia).
  split; [exact Hm|].
  destruct (kmp_comparisons_bound (str "ABABAB") (str "AA") Hm)
    as (st & trace & matches & _ & Hk & _ & _ & Hle).
  exists trace, matches. auto.
Defined.

(** C4. For a pattern that is not empty, [buildBMSteps] returns, every
    ShiftDecision step of its trace records a shift of at least 1 (after a
    mismatch, the larger of the bad-character and the good-suffix shift),
    the window starts of the successive alignments increase strictly, and
    there are at most n alignments, one for each turn of the outer loop. *)
Theorem bm_shift_positive {A : Type} `{Countable A} (text pattern : list A) :
  1 ≤ JS.len pattern →
  ∃ trace matches,
    buildBMSteps text pattern = Some (trace, matches) ∧
    Forall step_shift_ok trace ∧
    increasing (aligns trace) ∧
    JS.len (aligns trace) ≤ JS.len text.
Proof.
  intros Hm.
  destruct (buildBMSteps_spec text pattern Hm) as (bs & Hb & Hbinv & _).
  destruct Hbinv as (Hs & _ & Hwf & Hinc & _ & Hcount).
  exists (bm_steps bs ++ [completeStep]), (bm_matches bs).
  assert (aligns (bm_steps bs ++ [completeStep]) = aligns (bm_steps bs)) as ->.
  { unfold aligns. rewrite omap_app. simpl. by rewrite app_nil_r. }
  split_and!; try done.
  - apply Forall_app. split; [|by apply Forall_singleton].
    eapply Forall_impl; [done|]. by intros st (_ & _ & ?).
  - unfold JS.len in *. lia.
Qed.

Lemma bm_shift_positive_witness :
  1 ≤ JS.len (str "AB") ∧
  ∃ trace matches,
    buildBMSteps (str "ABCAB") (str "AB") = Some (trace, matches) ∧
    Forall step_shift_ok trace.
Proof.
  assert (1 ≤ JS.len (str "AB")) as Hm by (unfold JS.len; simpl; lia).
  split; [exact Hm|].
  destruct (bm_shift_positive (str "ABCAB") (str "AB") Hm)
    as (trace & matches & Hb & Hshift & _).
  exists trace, matches. auto.
Defined.

(** C5. For a pattern [p] that is not empty, [computeLPS] returns a table
    of the length of [p] whose entry 0 is 0 and whose entry [i] is the
    length of the longest proper prefix of [p[0..i]] that is also a suffix
    of it, hence at most [i].  For "AAAA" the table is [0,1,2,3]. *)
Theorem computeLPS_longest_border {A : Type} `{Countable A} (p : list A) :
  1 ≤ JS.len p →
  (∃ lps log,
     computeLPS p = Some (lps, log) ∧
     length lps = length p ∧
     lps !! 0%nat = Some 0 ∧
     ∀ i : nat, (i < length p)%nat →
       ∃ b : nat, lps !! i = Some (Z.of_nat b) ∧ (b ≤ i)%nat ∧
                  longest_proper_border (take (S i) p) b) ∧
  fst <$> computeLPS (str "AAAA") = Some [0; 1; 2; 3].
Proof.
  intros Hm. split; [|vm_compute; reflexivity].
  destruct (computeLPS_correct p Hm) as (lps & log & Hlps & Hlen & Htab).
  assert (∀ i : nat, (i < length p)%nat →
            ∃ b : nat, lps !! i = Some (Z.of_nat b) ∧ (b ≤ i)%nat ∧
                       longest_proper_border (take (S i) p) b) as Hall.
  { intros i Hi. destruct (Htab (Z.of_nat i)) as (v & Hv & Hlpsv).
    { unfold JS.len. lia. }
    destruct (is_lps_longest p i v Hi Hlpsv) as [Hvb Hlong].
    exists (Z.to_nat v). rewrite Z2Nat.id by lia. rewrite <- nth_lookup.
    split_and!; [done|lia|done]. }
  exists lps, log. split_and!; try done.
  - unfold JS.len in Hlen. lia.
  - destruct (Hall 0%nat) as (b & Hb & Hle & _); [unfold JS.len in Hm; lia|].
    rewrite Hb. f_equal. lia.
Qed.

Lemma computeLPS_longest_border_witness :
  1 ≤ JS.len (str "ABAB") ∧
  ∃ lps log, computeLPS (str "ABAB") = Some (lps, log) ∧
             length lps = length (str "ABAB").
Proof.
  assert (1 ≤ JS.len (str "ABAB")) as Hm by (unfold JS.len; simpl; lia).
  split; [exact Hm|].
  destruct (computeLPS_longest_border (str "ABAB") Hm)
    as [(lps & log & Hlps & Hlen & _) _].
  exists lps, log. auto.
Defined.

(** C6. For a pattern that is not empty and the trace of either generator:
    the lookup of the coordinate of the Compare step at index [k] (the
    index of the first step whose comparison has that text index and that
    pattern index) returns an index that is at most [k], and the step
    there records the same comparison, match flag included;
    [jumpToComparison] moves to that index, from any position.  For a
    coordinate that no step compares, the lookup returns [-1], the absent
    result, and [jumpToComparison] leaves the position as it is. *)
Theorem step_lookup_roundtrip {A : Type} `{Countable A}
    (text pattern : list A) :
  1 ≤ JS.len pattern →
  ∃ kmpTrace kmpMatches bmTrace bmMatches,
    buildKMPSteps text pattern = Some (kmpTrace, kmpMatches) ∧
    buildBMSteps text pattern = Some (bmTrace, bmMatches) ∧
    ∀ trace, trace = kmpTrace ∨ trace = bmTrace →
      (∀ (k : nat) step c,
         trace !! k = Some step → lastComparison step = Some c →
         ∃ (k' : nat) step',
           findIndex (comparesAt (textIndex c) (patternIndex c)) trace
           = Z.of_nat k' ∧
           (∀ pos, jumpToComparison trace pos (textIndex c) (patternIndex c)
                   = Z.of_nat k') ∧
           (k' ≤ k)%nat ∧
           trace !! k' = Some step' ∧ lastComparison step' = Some c) ∧
      (∀ t p pos,
         (∀ step, step ∈ trace → cmp_coord step ≠ Some (t, p)) →
         findIndex (comparesAt t p) trace = -1 ∧
         jumpToComparison trace pos t p = pos).
Proof.
  intros Hm.
  destruct (traces_wf text pattern Hm)
    as (ks & km & bs & bm & Hk & Hb & Hkwf & Hbwf).
  exists (ks ++ [completeStep]), km, (bs ++ [completeStep]), bm.
  split_and!; [done|done|]. intros trace Htrace.
  assert (Forall (step_cmp_ok text pattern) trace) as Hwf
    by (destruct Htrace as [->| ->]; by apply trace_cmp_ok).
  split.
  - intros k step c Hstep Hc.
    destruct (findIndex_roundtrip text pattern trace k step c Hwf Hstep Hc)
      as (k' & step' & Hfind & Hle & Hstep' & Hc').
    exists k', step'. split_and!; try done.
    intros pos. by apply jumpToComparison_found with step'.
  - intros t p pos Hno. by apply findIndex_absent.
Qed.

Lemma step_lookup_roundtrip_witness :
  1 ≤ JS.len (str "AB") ∧
  ∃ trace matches,
    buildBMSteps (str "ABCAB") (str "AB") = Some (trace, matches) ∧
    ∀ (k : nat) step c,
      trace !! k = Some step → lastComparison step = Some c →
      ∃ k' : nat,
        jumpToComparison trace 0 (textIndex c) (patternIndex c)
        = Z.of_nat k' ∧ (k' ≤ k)%nat.
Proof.
  assert (1 ≤ JS.len (str "AB")) as Hm by (unfold JS.len; simpl; lia).
  split; [exact Hm|].
  destruct (step_lookup_roundtrip (str "ABCAB") (str "AB") Hm)
    as (kt & km & bt & bm & _ & Hb & Hall).
  exists bt, bm. split; [exact Hb|]. intros k step c Hstep Hc.
  destruct (Hall bt (or_intror eq_refl)) as [Hfound _].
  destruct (Hfound k step c Hstep Hc) as (k' & step' & _ & Hjump & Hle & _).
  exists k'. split; [exact (Hjump 0)|exact Hle].
Defined.

(** C7. For a pattern that is not empty and both generators: every step
    that carries a [lastComparison] has a window of the length of the
    pattern, [windowEnd - windowStart + 1 = m], that holds the compared
    text index, and the window starts at [textIndex - patternIndex]. *)
Theorem compare_step_window {A : Type} `{Countable A}
    (text pattern : list A) :
  1 ≤ JS.len pattern →
  ∃ kmpTrace kmpMatches bmTrace bmMatches,
    buildKMPSteps text pattern = Some (kmpTrace, kmpMatches) ∧
    buildBMSteps text pattern = Some (bmTrace, bmMatches) ∧
    ∀ step c,
      step ∈ kmpTrace ∨ step ∈ bmTrace → lastComparison step = Some c →
      ∃ ws we,
        windowStart step = Some ws ∧ windowEnd step = Some we ∧
        we - ws + 1 = JS.len pattern ∧
        ws ≤ textIndex c ≤ we ∧
        ws = textIndex c - patternIndex c.
Proof.
  intros Hm.
  destruct (traces_wf text pattern Hm)
    as (ks & km & bs & bm & Hk & Hb & Hkwf & Hbwf).
  exists (ks ++ [completeStep]), km, (bs ++ [completeStep]), bm.
  split_and!; [done|done|]. intros step c Hstep Hc.
  assert (step_cmp_ok text pattern step) as Hok.
  { destruct Hstep as [Hin|Hin];
      [apply trace_cmp_ok in Hkwf|apply trace_cmp_ok in Hbwf];
      by eapply Forall_forall. }
  destruct (Hok c Hc) as (Hp & _ & Hws & Hwe).
  eexists _, _. split_and!; [done|done|lia..].
Qed.

Lemma compare_step_window_witness :
  1 ≤ JS.len (str "AB") ∧
  ∃ kmpTrace kmpMatches,
    buildKMPSteps (str "ABCAB") (str "AB") = Some (kmpTrace, kmpMatches) ∧
    ∀ step c, step ∈ kmpTrace → lastComparison step = Some c →
      windowStart step = Some (textIndex c - patternIndex c).
Proof.
  assert (1 ≤ JS.len (str "AB")) as Hm by (unfold JS.len; simpl; lia).
  split; [exact Hm|].
  destruct (compare_step_window (str "ABCAB") (str "AB") Hm)
    as (kt & km & bt & bm & Hk & _ & Hall).
  exists kt, km. split; [exact Hk|]. intros step c Hstep Hc.
  destruct (Hall step c (or_introl Hstep) Hc) as (ws & we & Hws & _ & _ & _ & ->).
  exact Hws.
Defined.

(** C8, as stated, fails.  In the trace of [buildBMSteps] for the text
    "ABA" and the pattern "A" the step at index 3, a ShiftDecision step,
    carries no [windowEnd]; in the trace of [buildKMPSteps] for the text
    "B" and the pattern "A" the step at index 1, an Increment step,
    carries neither bound. *)
Lemma window_bounds_counterexample :
  (∃ trace matches step,
     buildBMSteps (str "ABA") (str "A") = Some (trace, matches) ∧
     trace !! 3%nat = Some step ∧ action step = ActShiftAfterMatch 1 ∧
     windowEnd step = None) ∧
  (∃ trace matches step,
     buildKMPSteps (str "B") (str "A") = Some (trace, matches) ∧
     trace !! 1%nat = Some step ∧ action step = ActIncrement ∧
     windowStart step = None ∧ windowEnd step = None).
Proof.
  split; eexists _, _, _;
    (split; [vm_compute; reflexivity|]); (split; [reflexivity|]); done.
Qed.

(** C8, amended.  For a pattern that is not empty and both generators: the
    steps of kind Align, Compare, MatchFound and Fallback carry both
    [windowStart] and [windowEnd], and the ShiftDecision steps carry
    [windowStart], the new window start, and no [windowEnd]. *)
Theorem step_window_bounds {A : Type} `{Countable A}
    (text pattern : list A) :
  1 ≤ JS.len pattern →
  ∃ kmpTrace kmpMatches bmTrace bmMatches,
    buildKMPSteps text pattern = Some (kmpTrace, kmpMatches) ∧
    buildBMSteps text pattern = Some (bmTrace, bmMatches) ∧
    Forall step_bounds kmpTrace ∧ Forall step_bounds bmTrace.
Proof.
  intros Hm.
  destruct (traces_wf text pattern Hm)
    as (ks & km & bs & bm & Hk & Hb & Hkwf & Hbwf).
  exists (ks ++ [completeStep]), km, (bs ++ [completeStep]), bm.
  split_and!; [done|done|..];
    (apply Forall_app; split; [|by apply Forall_singleton]);
    (eapply Forall_impl; [done|]);
    intros st (_ & Hshape & _); by apply step_shape_bounds.
Qed.

Lemma step_window_bounds_witness :
  1 ≤ JS.len (str "A") ∧
  ∃ bmTrace bmMatches,
    buildBMSteps (str "ABA") (str "A") = Some (bmTrace, bmMatches) ∧
    Forall step_bounds bmTrace.
Proof.
  assert (1 ≤ JS.len (str "A")) as Hm by (unfold JS.len; simpl; lia).
  split; [exact Hm|].
  destruct (step_window_bounds (str "ABA") (str "A") Hm)
    as (kt & km & bt & bm & _ & Hb & _ & Hall).
  exists bt, bm. auto.
Defined.

(** C9. For a pattern that is not empty and both generators: the trace is
    not empty, its last step is the Complete step, and a step of the trace
    is the Complete step exactly when it is the last one, so the Complete
    step occurs once and no step follows it. *)
Theorem trace_ends_with_complete {A : Type} `{Countable A}
    (text pattern : list A) :
  1 ≤ JS.len pattern →
  ∃ kmpTrace kmpMatches bmTrace bmMatches,
    buildKMPSteps text pattern = Some (kmpTrace, kmpMatches) ∧
    buildBMSteps text pattern = Some (bmTrace, bmMatches) ∧
    ∀ trace, trace = kmpTrace ∨ trace = bmTrace →
      trace ≠ [] ∧
      last trace = Some completeStep ∧
      ∀ (k : nat) step, trace !! k = Some step →
        (action step = ActComplete ↔ S k = length trace).
Proof.
  intros Hm.
  destruct (traces_wf text pattern Hm)
    as (ks & km & bs & bm & Hk & Hb & Hkwf & Hbwf).
  exists (ks ++ [completeStep]), km, (bs ++ [completeStep]), bm.
  split_and!; [done|done|]. intros trace Htrace.
  assert (∃ steps, trace = steps ++ [completeStep] ∧
                   Forall (step_wf text pattern) steps)
    as (steps & -> & Hwf) by (destruct Htrace as [->| ->]; eauto).
  split_and!.
  - by destruct steps.
  - apply last_snoc.
  - intros k step Hstep. rewrite length_app. simpl.
    apply lookup_app_Some in Hstep as [Hstep|[Hge Hstep]].
    + pose proof (lookup_lt_Some _ _ _ Hstep).
      pose proof (Forall_lookup_1 _ _ _ _ Hwf Hstep) as (_ & Hshape & _).
      unfold step_shape in Hshape. split; [|lia].
      intros Hact. by rewrite Hact in Hshape.
    + apply list_lookup_singleton_Some in Hstep as [Hk0 <-].
      split; [lia|done].
Qed.

Lemma trace_ends_with_complete_witness :
  1 ≤ JS.len (str "AB") ∧
  ∃ kmpTrace kmpMatches,
    buildKMPSteps (str "ABCAB") (str "AB") = Some (kmpTrace, kmpMatches) ∧
    last kmpTrace = Some completeStep.
Proof.
  assert (1 ≤ JS.len (str "AB")) as Hm by (unfold JS.len; simpl; lia).
  split; [exact Hm|].
  destruct (trace_ends_with_complete (str "ABCAB") (str "AB") Hm)
    as (kt & km & bt & bm & Hk & _ & Hall).
  exists kt, km. split; [exact Hk|].
  exact (proj1 (proj2 (Hall kt (or_introl eq_refl)))).
Defined.

(** C10, as stated, fails: the value that marks an entry as unset is [m],
    the value that fills the table at the start, and entry 0 can be that
    value.  For the pattern "AB" the table is [2, 2, 1], and entry 0 is
    2 = m. *)
Lemma goodSuffix_entry0_sentinel_counterexample :
  1 ≤ JS.len (str "AB") ∧
  ∃ good,
    computeGoodSuffix (str "AB") = Some good ∧
    JS.nth good 0 = Some (JS.len (str "AB")) ∧
    JS.nth good 0
    = JS.nth (JS.fill (JS.len (str "AB") + 1) (JS.len (str "AB"))) 0.
Proof.
  split; [unfold JS.len; simpl; lia|].
  eexists. split; [vm_compute; reflexivity|]. split; reflexivity.
Qed.

(** C10, amended.  For a pattern that is not empty, [computeGoodSuffix]
    returns a list of m + 1 integers, each between 1 and m.  Entry 0, the
    shift after a full match, is thus never 0; it can be [m], and it is
    always the smallest period of the pattern, the least shift that lays
    the pattern over itself. *)
Theorem computeGoodSuffix_range {A : Type} `{Countable A} (p : list A) :
  1 ≤ JS.len p →
  ∃ good,
    computeGoodSuffix p = Some good ∧
    length good = S (length p) ∧
    Forall (λ v, 1 ≤ v ≤ JS.len p) good ∧
    ∃ v0, good !! 0%nat = Some v0 ∧ v0 ≠ 0 ∧
      (∀ x, v0 ≤ x < JS.len p → JS.nth p (x - v0) = JS.nth p x) ∧
      (∀ d, 1 ≤ d →
            (∀ x, d ≤ x < JS.len p → JS.nth p (x - d) = JS.nth p x) →
            v0 ≤ d).
Proof.
  intros Hm.
  destruct (computeGoodSuffix_correct p Hm) as (good & Hgood & Hlen & Htab).
  exists good. split_and!; [done|unfold JS.len in Hlen; lia| |].
  - apply Forall_lookup. intros i v Hv.
    pose proof (lookup_lt_Some _ _ _ Hv) as Hi.
    destruct (Htab (Z.of_nat i)) as (v' & Hv' & Hb & _).
    { unfold JS.len in *. lia. }
    rewrite nth_lookup in Hv'. congruence.
  - destruct (Htab 0) as (v0 & Hv0 & Hb & Hok & Hper); [lia|].
    exists v0. change 0 with (Z.of_nat 0) in Hv0 at 1.
    rewrite nth_lookup in Hv0. split_and!; [done|lia| |].
    + destruct (Hper eq_refl) as [_ Hbord]. intros x Hx.
      rewrite <- (Hbord x Hx). f_equal. lia.
    + intros d Hd Hbord. apply Hok; [done|]. split; [|lia].
      intros x Hx Hdx. apply Hbord. lia.
Qed.

Lemma computeGoodSuffix_range_witness :
  1 ≤ JS.len (str "ABAB") ∧
  ∃ good, computeGoodSuffix (str "ABAB") = Some good ∧
          Forall (λ v, 1 ≤ v ≤ JS.len (str "ABAB")) good.
Proof.
  assert (1 ≤ JS.len (str "ABAB")) as Hm by (unfold JS.len; simpl; lia).
  split; [exact Hm|].
  destruct (computeGoodSuffix_range (str "ABAB") Hm)
    as (good & Hgood & _ & Hall & _).
  exists good. auto.
Defined.

(** * Further properties *)

(** X1. The bad-character table maps a character to its last index in the
    pattern: the character stands there and nowhere to the right of it;
    a character without an entry does not occur in the pattern. *)
Theorem computeBadChar_rightmost {A : Type} `{Countable A}
    (p : list A) (c : A) :
  match computeBadChar p !! c with
  | Some i => JS.nth p i = Some c ∧ ∀ x, i < x → JS.nth p x ≠ Some c
  | None => ∀ x, JS.nth p x ≠ Some c
  end.
Proof.
  destruct (computeBadChar p !! c) as [i|] eqn:E.
  - by apply computeBadChar_rightmost_of.
  - intros x Hx. pose proof (nth_Some_inv _ _ _ Hx) as Hr.
    destruct (computeBadChar_spec p c) as [_ Hlast]. simpl in Hlast.
    rewrite E in Hlast. simpl in Hlast. apply (Hlast x); [lia|done].
Qed.

(** X2. For a pattern that is not empty, every entry [k] of the table of
    [computeGoodSuffix] is the least shift of at least 1 that is
    compatible with a mismatch at pattern index [k - 1] (a full match for
    [k = 0]): the entry is a shift between 1 and m, it is compatible, and
    no compatible shift of at least 1 is shorter. *)
Theorem computeGoodSuffix_least_shift {A : Type} `{Countable A}
    (p : list A) :
  1 ≤ JS.len p →
  ∃ good,
    computeGoodSuffix p = Some good ∧
    ∀ k, 0 ≤ k ≤ JS.len p →
      ∃ v, JS.nth good k = Some v ∧
           1 ≤ v ≤ JS.len p ∧
           compatible p k v ∧
           ∀ d, 1 ≤ d → compatible p k d → v ≤ d.
Proof.
  intros Hm. destruct (computeGoodSuffix_exact p Hm) as (good & Hgood & Htab).
  exists good. split; [done|]. intros k Hk.
  destruct (Htab k Hk) as (v & Hv & Hb & Hc & Hok). eauto.
Qed.

Lemma computeGoodSuffix_least_shift_witness :
  1 ≤ JS.len (str "ABAB") ∧
  ∃ good v, computeGoodSuffix (str "ABAB") = Some good ∧
            JS.nth good 0 = Some v ∧ 1 ≤ v ∧ compatible (str "ABAB") 0 v.
Proof.
  assert (1 ≤ JS.len (str "ABAB")) as Hm by (unfold JS.len; simpl; lia).
  split; [exact Hm|].
  destruct (computeGoodSuffix_least_shift (str "ABAB") Hm)
    as (good & Hgood & Htab).
  destruct (Htab 0) as (v & Hv & [Hb _] & Hc & _);
    [unfold JS.len; simpl; lia|].
  exists good, v. auto.
Defined.

(** X3. For a pattern that is not empty, the log of [computeLPS] holds two
    lines for every comparison, at most [2 (m - 1)] comparisons, and it
    explains the table: a line [Match -> lps[k] = v] or [Set lps[k] = 0]
    names the value that the returned table has at [k], and every index
    from 1 on has such a line. *)
Theorem computeLPS_log_explains_table {A : Type} `{Countable A}
    (p : list A) :
  1 ≤ JS.len p →
  ∃ lps log,
    computeLPS p = Some (lps, log) ∧
    JS.len log = 2 * log_compares log ∧
    log_compares log ≤ 2 * (JS.len p - 1) ∧
    (∀ k v, LogMatch k v ∈ log → JS.nth lps k = Some v) ∧
    (∀ k, LogSet k ∈ log → JS.nth lps k = Some 0) ∧
    (∀ k, 1 ≤ k < JS.len p → (∃ v, LogMatch k v ∈ log) ∨ LogSet k ∈ log).
Proof. apply computeLPS_log. Qed.

Lemma computeLPS_log_explains_table_witness :
  1 ≤ JS.len (str "ABAB") ∧
  ∃ lps log, computeLPS (str "ABAB") = Some (lps, log) ∧
             log_compares log ≤ 2 * (JS.len (str "ABAB") - 1).
Proof.
  assert (1 ≤ JS.len (str "ABAB")) as Hm by (unfold JS.len; simpl; lia).
  split; [exact Hm|].
  destruct (computeLPS_log_explains_table (str "ABAB") Hm)
    as (lps & log & Hlps & _ & Hle & _).
  exists lps, log. auto.
Defined.

(** X4. For a pattern that is not empty, the text indices of the
    successive Compare steps of [buildKMPSteps] never decrease, and they
    are exactly the indices of the text: the search does not go back in
    the text and leaves out no character. *)
Theorem kmp_scans_text_forward {A : Type} `{Countable A}
    (text pattern : list A) :
  1 ≤ JS.len pattern →
  ∃ trace matches,
    buildKMPSteps text pattern = Some (trace, matches) ∧
    nondecreasing (omap cmp_text trace) ∧
    ∀ t, t ∈ omap cmp_text trace ↔ 0 ≤ t < JS.len text.
Proof.
  intros Hm.
  destruct (kmp_run_full text pattern Hm)
    as (st & Hk & _ & _ & Hi & (_ & _ & Ht & _ & Hnd & _ & Hcov)).
  exists (ks_steps st ++ [completeStep]), (ks_matches st).
  assert (omap cmp_text (ks_steps st ++ [completeStep])
          = omap cmp_text (ks_steps st)) as ->.
  { rewrite omap_app. simpl. by rewrite app_nil_r. }
  split_and!; [done|done|]. intros t. split.
  - intros (step & Hin & Hc)%list_elem_of_omap.
    unfold cmp_text in Hc.
    destruct (lastComparison step) as [c|] eqn:Ec; [|done].
    injection Hc as <-.
    by apply (proj1 (Forall_forall _ _) Ht step Hin c).
  - intros Hr. apply Hcov. lia.
Qed.

Lemma kmp_scans_text_forward_witness :
  1 ≤ JS.len (str "AB") ∧
  ∃ trace matches,
    buildKMPSteps (str "ABCAB") (str "AB") = Some (trace, matches) ∧
    nondecreasing (omap cmp_text trace).
Proof.
  assert (1 ≤ JS.len (str "AB")) as Hm by (unfold JS.len; simpl; lia).
  split; [exact Hm|].
  destruct (kmp_scans_text_forward (str "ABCAB") (str "AB") Hm)
    as (trace & matches & Hk & Hnd & _).
  exists trace, matches. auto.
Defined.

(** X5. For a pattern that is not empty and both generators, the steps
    [Pattern found at ...] of the trace announce the entries of the match
    list, one step for every entry and in the same order. *)
Theorem found_steps_are_matches {A : Type} `{Countable A}
    (text pattern : list A) :
  1 ≤ JS.len pattern →
  ∃ kmpTrace kmpMatches bmTrace bmMatches,
    buildKMPSteps text pattern = Some (kmpTrace, kmpMatches) ∧
    buildBMSteps text pattern = Some (bmTrace, bmMatches) ∧
    omap found_start kmpTrace = kmpMatches ∧
    omap found_start bmTrace = bmMatches.
Proof.
  intros Hm.
  destruct (kmp_run_full text pattern Hm)
    as (ks & Hk & _ & _ & _ & (_ & _ & _ & Hkf & _)).
  destruct (bm_run_full text pattern Hm) as (bs & Hb & _ & _ & (_ & Hbf & _)).
  exists (ks_steps ks ++ [completeStep]), (ks_matches ks),
         (bm_steps bs ++ [completeStep]), (bm_matches bs).
  rewrite !omap_app. simpl. rewrite !app_nil_r. done.
Qed.

Lemma found_steps_are_matches_witness :
  1 ≤ JS.len (str "AB") ∧
  ∃ bmTrace bmMatches,
    buildBMSteps (str "ABCAB") (str "AB") = Some (bmTrace, bmMatches) ∧
    omap found_start bmTrace = bmMatches.
Proof.
  assert (1 ≤ JS.len (str "AB")) as Hm by (unfold JS.len; simpl; lia).
  split; [exact Hm|].
  destruct (found_steps_are_matches (str "ABCAB") (str "AB") Hm)
    as (kt & km & bt & bm & _ & Hb & _ & Hf).
  exists bt, bm. auto.
Defined.

(** X6. For a pattern that is not empty, [buildBMSteps] makes at most [m]
    comparisons for every alignment, so the comparisons that the
    application counts are at most [m (n - m + 1)], and never more than
    the worst case [n m] that it shows for Boyer-Moore. *)
Theorem bm_comparisons_bound {A : Type} `{Countable A}
    (text pattern : list A) :
  1 ≤ JS.len pattern →
  ∃ trace matches,
    buildBMSteps text pattern = Some (trace, matches) ∧
    totalComparisons trace ≤ JS.len pattern * JS.len (aligns trace) ∧
    totalComparisons trace
    ≤ JS.len pattern * Z.max 0 (JS.len text - JS.len pattern + 1) ∧
    totalComparisons trace ≤ worstCaseComparisons text pattern "BM".
Proof.
  intros Hm.
  destruct (bm_run_full text pattern Hm)
    as (bs & Hb & Hinv & _ & (_ & _ & Hcount)).
  destruct Hinv as (_ & _ & _ & _ & _ & Hal).
  exists (bm_steps bs ++ [completeStep]), (bm_matches bs).
  rewrite totalComparisons_omap.
  assert (omap cmp_coord (bm_steps bs ++ [completeStep])
          = omap cmp_coord (bm_steps bs)) as ->
    by (rewrite omap_app; simpl; by rewrite app_nil_r).
  assert (aligns (bm_steps bs ++ [completeStep]) = aligns (bm_steps bs)) as ->
    by (unfold aligns; rewrite omap_app; simpl; by rewrite app_nil_r).
  unfold worstCaseComparisons. simpl.
  assert (0 ≤ JS.len text) by (unfold JS.len; lia).
  split_and!; [done|done|nia|nia].
Qed.

Lemma bm_comparisons_bound_witness :
  1 ≤ JS.len (str "AB") ∧
  ∃ trace matches,
    buildBMSteps (str "ABCAB") (str "AB") = Some (trace, matches) ∧
    totalComparisons trace
    ≤ worstCaseComparisons (str "ABCAB") (str "AB") "BM".
Proof.
  assert (1 ≤ JS.len (str "AB")) as Hm by (unfold JS.len; simpl; lia).
  split; [exact Hm|].
  destruct (bm_comparisons_bound (str "ABCAB") (str "AB") Hm)
    as (trace & matches & Hb & _ & _ & Hle).
  exists trace, matches. auto.
Defined.

(** X7. After [onRun] with a pattern that is not empty, whatever the
    position and whichever algorithm: the cell [j] of the pattern row and
    the cell of the text row above it, [windowStart + j], get the same
    class, so the highlighted pattern cell lies under the highlighted text
    cell and has its colour; and at a step with a comparison the pattern
    cell [patternIndex] is highlighted, as a match or a mismatch by the
    flag of the comparison. *)
Theorem highlighted_cells_aligned {A : Type} `{Countable A}
    (text pattern : list A) (algorithm : string) (app : AppState) :
  pattern ≠ [] →
  ∃ app',
    onRun text pattern algorithm app = Some app' ∧
    ∀ pos,
      let current := currentStep (app_steps app') pos in
      let ws := windowStartOf current in
      (∀ j, patternCellClass current ws j = textCellClass current (ws + j)) ∧
      (∀ step c,
         current = Some step → lastComparison step = Some c →
         patternCellClass current ws (patternIndex c)
         = if cmatch c then ClsMatch else ClsMismatch).
Proof.
  intros Hne.
  assert (1 ≤ JS.len pattern) as Hm
    by (destruct pattern; [done|unfold JS.len; simpl; lia]).
  destruct (selected_trace text pattern algorithm Hm) as (steps & Hsel & Hok).
  unfold onRun. rewrite bool_decide_eq_false_2 by done. rewrite Hsel. simpl.
  eexists; split; [done|]. simpl. intros pos.
  destruct (currentStep (steps ++ [completeStep]) pos) as [step|] eqn:Ecur;
    [|done].
  assert (step_render_ok text pattern step) as (Hcmp & [Hci Hlm] & _).
  { unfold currentStep, JS.nth in Ecur. case_bool_decide; [|done].
    by apply (Forall_lookup_1 _ _ _ _ Hok Ecur). }
  unfold patternCellClass, textCellClass, isComp, isCompare, windowStartOf.
  simpl. rewrite Hci, Hlm.
  destruct (lastComparison step) as [c|] eqn:Ec; simpl.
  - destruct (Hcmp c Ec) as (_ & _ & -> & _). simpl. split.
    + intros j. destruct (decide (j = patternIndex c)) as [->|Hj].
      * rewrite !(proj2 (Z.eqb_eq _ _)) by lia. simpl.
        rewrite bool_decide_eq_true_2 by (f_equal; lia). done.
      * rewrite (proj2 (Z.eqb_neq (textIndex c) _)) by lia. simpl.
        rewrite bool_decide_eq_false_2; [done|]. intros [= Heq]. lia.
    + intros step' c' [= <-] Hc'. assert (c' = c) as -> by congruence.
      rewrite !(proj2 (Z.eqb_eq _ _)) by lia. done.
  - split; [done|]. intros step' c' [= <-] Hc'. congruence.
Qed.

Lemma highlighted_cells_aligned_witness :
  str "AB" ≠ [] ∧
  ∃ app',
    onRun (str "ABCAB") (str "AB") "KMP" resetOnInput = Some app' ∧
    patternCellClass (currentStep (app_steps app') 0)
      (windowStartOf (currentStep (app_steps app') 0)) 0
    = textCellClass (currentStep (app_steps app') 0)
        (windowStartOf (currentStep (app_steps app') 0) + 0).
Proof.
  assert (str "AB" ≠ []) as Hne by done.
  split; [exact Hne|].
  destruct (highlighted_cells_aligned (str "ABCAB") (str "AB") "KMP"
              resetOnInput Hne) as (app' & Hrun & Hall).
  exists app'. split; [exact Hrun|]. exact (proj1 (Hall 0) 0).
Defined.

(** X8. After [onRun] with a pattern that is not empty, the comparison of
    every step of the stored trace names a cell of the stored grid, and
    the grid shows for that cell what the step records: equal for a match,
    different for a mismatch. *)
Theorem grid_agrees_with_trace {A : Type} `{Countable A}
    (text pattern : list A) (algorithm : string) (app : AppState) :
  pattern ≠ [] →
  ∃ app',
    onRun text pattern algorithm app = Some app' ∧
    ∀ step c,
      step ∈ app_steps app' → lastComparison step = Some c →
      (row ← JS.nth (app_compareGrid app') (textIndex c);
       JS.nth row (patternIndex c))
      = Some (cmatch c).
Proof.
  intros Hne.
  assert (1 ≤ JS.len pattern) as Hm
    by (destruct pattern; [done|unfold JS.len; simpl; lia]).
  destruct (selected_trace text pattern algorithm Hm) as (steps & Hsel & Hok).
  unfold onRun. rewrite bool_decide_eq_false_2 by done. rewrite Hsel. simpl.
  eexists; split; [done|]. simpl. intros step c Hin Hc.
  destruct (proj1 (Forall_forall _ _) Hok step Hin) as (Hcmp & _ & Ht).
  destruct (Hcmp c Hc) as (Hp & -> & _).
  apply compareGridOf_cell; [by apply (Ht c)|done].
Qed.

Lemma grid_agrees_with_trace_witness :
  str "AB" ≠ [] ∧
  ∃ app',
    onRun (str "ABCAB") (str "AB") "BM" resetOnInput = Some app' ∧
    ∀ step c,
      step ∈ app_steps app' → lastComparison step = Some c →
      (row ← JS.nth (app_compareGrid app') (textIndex c);
       JS.nth row (patternIndex c))
      = Some (cmatch c).
Proof.
  assert (str "AB" ≠ []) as Hne by done.
  split; [exact Hne|].
  exact (grid_agrees_with_trace (str "ABCAB") (str "AB") "BM"
           resetOnInput Hne).
Defined.

(** X9. With a position inside a trace, [onNext], [onPrev], [onReset] and
    [jumpToComparison] all lead to a position inside the trace, where a
    current step exists.  [onPrev] undoes [onNext] except at the last
    step, where [onNext] stays; [onNext] undoes [onPrev] except at the
    first step, where [onPrev] stays.  [jumpToComparison] stays where it
    is or lands on a step that compares the clicked cell. *)
Theorem navigation_stays_in_trace {A : Type} `{Countable A}
    (steps : list (@Step A)) (pos t p : Z) :
  0 ≤ pos < JS.len steps →
  (∀ r, r = onNext steps pos ∨ r = onPrev pos ∨ r = onReset ∨
        r = jumpToComparison steps pos t p →
        0 ≤ r < JS.len steps ∧ is_Some (currentStep steps r)) ∧
  (pos + 1 < JS.len steps → onPrev (onNext steps pos) = pos) ∧
  (0 < pos → onNext steps (onPrev pos) = pos) ∧
  onNext steps (JS.len steps - 1) = JS.len steps - 1 ∧
  onPrev 0 = 0 ∧
  (jumpToComparison steps pos t p = pos ∨
   ∃ step c,
     currentStep steps (jumpToComparison steps pos t p) = Some step ∧
     lastComparison step = Some c ∧ textIndex c = t ∧ patternIndex c = p).
Proof.
  intros Hpos. unfold onNext, onPrev, onReset, currentStep.
  split_and!; try lia; [|apply jumpToComparison_cases].
  intros r Hr.
  assert (0 ≤ r < JS.len steps) as Hrange.
  { destruct Hr as [-> | [-> | [-> | ->]]]; try lia.
    destruct (jumpToComparison_cases steps pos t p)
      as [->|(step & c & Hstep & _)]; [done|].
    by apply nth_Some_inv in Hstep. }
  split; [done|]. destruct (nth_is_Some steps r Hrange) as [step Hstep].
  by exists step.
Qed.

Lemma navigation_stays_in_trace_witness :
  0 ≤ 1 < JS.len [completeStep (A:=Ascii.ascii); completeStep] ∧
  onPrev (onNext [completeStep (A:=Ascii.ascii); completeStep] 0) = 0.
Proof.
  assert (0 ≤ 0 < JS.len [completeStep (A:=Ascii.ascii); completeStep])
    as Hpos by (unfold JS.len; simpl; lia).
  split; [unfold JS.len; simpl; lia|].
  destruct (navigation_stays_in_trace
              [completeStep (A:=Ascii.ascii); completeStep] 0 0 0 Hpos)
    as (_ & Hundo & _).
  apply Hundo. unfold JS.len; simpl; lia.
Defined.

(** X10. [onRun] does nothing for the empty pattern.  For any other
    pattern it returns, whichever algorithm is selected, with the
    position 0, a current step there, and the same match list: a text
    cell is marked as the start of an occurrence exactly when the pattern
    occurs at its index. *)
Theorem onRun_result {A : Type} `{Countable A}
    (text pattern : list A) (algorithm : string) (app : AppState) :
  onRun text [] algorithm app = Some app ∧
  (pattern ≠ [] →
   ∃ trace,
     onRun text pattern algorithm app
     = Some (mkApp trace 0 true (bruteForce text pattern)
               (compareGridOf text pattern)) ∧
     is_Some (currentStep trace 0) ∧
     ∀ i, isFoundStart (bruteForce text pattern) i = true ↔
          occurs_at text pattern i).
Proof.
  split; [done|]. intros Hne.
  assert (1 ≤ JS.len pattern) as Hm
    by (destruct pattern; [done|unfold JS.len; simpl; lia]).
  destruct (selected_trace text pattern algorithm Hm) as (steps & Hsel & Hok).
  unfold onRun. rewrite bool_decide_eq_false_2 by done. rewrite Hsel. simpl.
  eexists; split; [done|]. split.
  - unfold currentStep. apply nth_is_Some.
    unfold JS.len. rewrite length_app. simpl. lia.
  - intros i. unfold isFoundStart. rewrite bool_decide_eq_true.
    by apply elem_of_bruteForce.
Qed.

Lemma onRun_result_witness :
  str "AB" ≠ [] ∧
  ∃ trace,
    onRun (str "ABCAB") (str "AB") "KMP" resetOnInput
    = Some (mkApp trace 0 true (bruteForce (str "ABCAB") (str "AB"))
              (compareGridOf (str "ABCAB") (str "AB"))).
Proof.
  assert (str "AB" ≠ []) as Hne by done.
  split; [exact Hne|].
  destruct (proj2 (onRun_result (str "ABCAB") (str "AB") "KMP" resetOnInput)
              Hne) as (trace & Hrun & _).
  exists trace. exact Hrun.
Defined.

(** X11. The comparisons counted up to the current position grow with the
    position, are none before the first step, never exceed the total, and
    reach it at the last step. *)
Theorem currentComparisons_progress {A : Type} `{Countable A}
    (steps : list (@Step A)) (pos pos' : Z) :
  -1 ≤ pos ≤ pos' →
  currentComparisons steps (-1) = 0 ∧
  currentComparisons steps pos ≤ currentComparisons steps pos' ∧
  currentComparisons steps pos' ≤ totalComparisons steps ∧
  (JS.len steps - 1 ≤ pos →
   currentComparisons steps pos = totalComparisons steps).
Proof.
  intros Hpos. unfold currentComparisons.
  rewrite !sliceTo_take by lia. split_and!.
  - done.
  - apply totalComparisons_take. lia.
  - rewrite <- (take_drop (Z.to_nat (pos' + 1)) steps) at 2.
    rewrite totalComparisons_app.
    pose proof (totalComparisons_nonneg (drop (Z.to_nat (pos' + 1)) steps)).
    lia.
  - intros Hlast. rewrite take_ge; [done|]. unfold JS.len in Hlast. lia.
Qed.

Lemma currentComparisons_progress_witness :
  -1 ≤ 0 ≤ 1 ∧
  currentComparisons [completeStep (A:=Ascii.ascii); completeStep] 0
  ≤ currentComparisons [completeStep (A:=Ascii.ascii); completeStep] 1.
Proof.
  assert (-1 ≤ 0 ≤ 1) as Hpos by lia.
  split; [exact Hpos|].
  exact (proj1 (proj2 (currentComparisons_progress
           [completeStep (A:=Ascii.ascii); completeStep] 0 1 Hpos))).
Defined.

(** X12. For a pattern that is not empty: every comparison of either
    trace compares an index of the text with an index of the pattern, and
    every window that a step of [buildBMSteps] gives in full lies inside
    the text. *)
Theorem compared_indices_in_text {A : Type} `{Countable A}
    (text pattern : list A) :
  1 ≤ JS.len pattern →
  ∃ kmpTrace kmpMatches bmTrace bmMatches,
    buildKMPSteps text pattern = Some (kmpTrace, kmpMatches) ∧
    buildBMSteps text pattern = Some (bmTrace, bmMatches) ∧
    (∀ step c,
       step ∈ kmpTrace ∨ step ∈ bmTrace → lastComparison step = Some c →
       0 ≤ textIndex c < JS.len text ∧
       0 ≤ patternIndex c < JS.len pattern) ∧
    (∀ step ws we,
       step ∈ bmTrace →
       windowStart step = Some ws → windowEnd step = Some we →
       0 ≤ ws ∧ we ≤ JS.len text - 1).
Proof.
  intros Hm.
  destruct (selected_trace text pattern "KMP" Hm) as (ks & Hk & Hkok).
  destruct (selected_trace text pattern "BM" Hm) as (bs & Hb & Hbok).
  simpl in Hk, Hb.
  destruct (bm_run_full text pattern Hm) as (st & Hb' & _ & _ & (Hex & _)).
  exists (ks ++ [completeStep]), (bruteForce text pattern),
         (bs ++ [completeStep]), (bruteForce text pattern).
  split_and!; [done|done| |].
  - intros step c Hin Hc.
    assert (step_render_ok text pattern step) as (Hcmp & _ & Ht).
    { destruct Hin as [Hin|Hin];
        [exact (proj1 (Forall_forall _ _) Hkok step Hin)
        |exact (proj1 (Forall_forall _ _) Hbok step Hin)]. }
    destruct (Hcmp c Hc) as (Hp & _). split; [by apply Ht|done].
  - intros step ws we Hin Hws Hwe.
    assert (bs = bm_steps st) as ->.
    { rewrite Hb in Hb'. injection Hb' as Heq _.
      by apply app_inj_tail in Heq as [-> _]. }
    apply elem_of_app in Hin as [Hin|Hin%list_elem_of_singleton];
      [|by subst step].
    destruct (proj1 (Forall_forall _ _) Hex step Hin) as (_ & _ & Hw & _).
    destruct (Hw we Hwe) as (ws' & Hws' & ? & ?).
    assert (ws' = ws) as -> by congruence. done.
Qed.

Lemma compared_indices_in_text_witness :
  1 ≤ JS.len (str "AB") ∧
  ∃ bmTrace bmMatches,
    buildBMSteps (str "ABCAB") (str "AB") = Some (bmTrace, bmMatches) ∧
    ∀ step ws we,
      step ∈ bmTrace →
      windowStart step = Some ws → windowEnd step = Some we →
      0 ≤ ws ∧ we ≤ JS.len (str "ABCAB") - 1.
Proof.
  assert (1 ≤ JS.len (str "AB")) as Hm by (unfold JS.len; simpl; lia).
  split; [exact Hm|].
  destruct (compared_indices_in_text (str "ABCAB") (str "AB") Hm)
    as (kt & km & bt & bm & _ & Hb & _ & Hw).
  exists bt, bm. auto.
Defined.

(** X13. For a pattern that is not empty, no ShiftDecision step of
    [buildBMSteps] shifts by more than the length of the pattern, and the
    bad-character and the good-suffix shift that a mismatch names both lie
    between 1 and that length. *)
Theorem bm_shift_at_most_pattern {A : Type} `{Countable A}
    (text pattern : list A) :
  1 ≤ JS.len pattern →
  ∃ trace matches,
    buildBMSteps text pattern = Some (trace, matches) ∧
    Forall (step_shift_le pattern) trace.
Proof.
  intros Hm.
  destruct (bm_run_full text pattern Hm) as (st & Hb & _ & _ & (Hex & _)).
  exists (bm_steps st ++ [completeStep]), (bm_matches st).
  split; [done|]. apply Forall_app. split; [|by apply Forall_singleton].
  eapply Forall_impl; [done|]. by intros step (_ & _ & _ & ?).
Qed.

Lemma bm_shift_at_most_pattern_witness :
  1 ≤ JS.len (str "AB") ∧
  ∃ trace matches,
    buildBMSteps (str "ABCAB") (str "AB") = Some (trace, matches) ∧
    Forall (step_shift_le (str "AB")) trace.
Proof.
  assert (1 ≤ JS.len (str "AB")) as Hm by (unfold JS.len; simpl; lia).
  split; [exact Hm|].
  exact (bm_shift_at_most_pattern (str "ABCAB") (str "AB") Hm).
Defined.
